(** * rackspace-spot-mcp: session handling and the read-only tool gate

    A shallow embedding of [src/client/spot-client.ts] (the [SpotClient]
    class: token cache, authentication exchange, bearer middleware) and of
    [src/index.ts] (tool catalog, [ListTools] and [CallTool] request
    handlers, [main]), followed by the properties proved about them. *)

From stdpp Require Import gmap strings list pretty.
From Stdlib Require Import ZArith Ascii.

Open Scope Z_scope.

(** ** JavaScript values used by both files *)

(** [String.prototype.includes]: [sub] occurs somewhere in [s]. *)
Fixpoint includes (s sub : string) : bool :=
  String.prefix sub s
  || match s with
     | EmptyString => false
     | String _ s' => includes s' sub
     end.

(** Truthiness of a [string | null | undefined] slot: [null], [undefined]
    and the empty string are falsy. *)
Definition truthy (v : option string) : bool :=
  match v with
  | Some (String _ _) => true
  | _ => false
  end.

(** The double-quote character, for the string literals that contain it. *)
Definition dquote : string := String "034"%char EmptyString.

(** What a [throw] (or a rejected promise) carries: an [Error] object with
    its [message], or some other value, kept as [String(value)]. *)
Inductive Thrown :=
  | ErrorObj (message : string)
  | NonError (shown : string).

(** Outcome of an [async] function: resolved with a value or rejected. *)
Inductive Res (A : Type) :=
  | Ok (a : A)
  | Throw (e : Thrown).
Arguments Ok {A} a.
Arguments Throw {A} e.

(** ** src/client/spot-client.ts *)

Module SpotClient.

Definition AUTH_BASE_URL : string := "https://login.spot.rackspace.com".
Definition API_BASE_URL : string := "https://spot.rackspace.com".
Definition CLIENT_ID : string := "mwG3lUMV8KyeMqHe4fJ5Bb3nM1vBvRNa".

Record TokenResponse := {
  access_token : string;
  id_token : string;
  scope : string;
  expires_in : Z;
  token_type : string;
}.

(** Request bodies the client builds: none, a [URLSearchParams] form, or
    [JSON.stringify] of a flat object of strings. *)
Inductive Body :=
  | NoBody
  | FormBody (fields : list (string * string))
  | JsonBody (fields : list (string * string)).

(** A request as [fetch] receives it.  Header names are kept as the source
    writes them; [method] is [GET] where the source leaves it out. *)
Record Request := {
  url : string;
  method : string;
  headers : gmap string string;
  body : Body;
}.

(** The private fields of [SpotClient] ([customFetch] is the environment
    below, [client] is the openapi-fetch instance using [authMiddleware]). *)
Record t := {
  refreshToken : string;
  accessToken : option string;
  tokenExpiry : Z;
  authBaseUrl : string;
  apiBaseUrl : string;
}.

(** [SpotClientConfig] and the constructor. *)
Record SpotClientConfig := {
  cfg_refreshToken : string;
  cfg_baseUrl : option string;
  cfg_authUrl : option string;
}.

Definition new (config : SpotClientConfig) : t :=
  {| refreshToken := cfg_refreshToken config;
     accessToken := None;
     tokenExpiry := 0;
     authBaseUrl := default AUTH_BASE_URL (cfg_authUrl config);
     apiBaseUrl := default API_BASE_URL (cfg_baseUrl config) |}.

Definition set_session (c : t) (tok : string) (expiry : Z) : t :=
  {| refreshToken := refreshToken c;
     accessToken := Some tok;
     tokenExpiry := expiry;
     authBaseUrl := authBaseUrl c;
     apiBaseUrl := apiBaseUrl c |}.

(** The cached session is within its validity window at time [now]: a token
    is there (truthy) and [now] is before the expiry minus the 60s buffer. *)
Definition session_valid_at (c : t) (now : Z) : Prop :=
  truthy (accessToken c) = true ∧ now < tokenExpiry c - 60000.

Section WithEnvironment.

(** The parsed body of a response is opaque; [as_TokenResponse] is the
    cast [(await response.json()) as TokenResponse] with its field reads. *)
Context {Json : Type}.
Variable as_TokenResponse : Json -> TokenResponse.

(** A [Response]: [text] is what [response.text()] resolves to, [json]
    what [response.json()] resolves to (or rejects with). *)
Record Response := {
  ok : bool;
  status : Z;
  text : string;
  json : Res Json;
}.

(** The outside world: the [n]-th call of [customFetch] (counting from 0)
    on a request resolves to a response or rejects, and the [n]-th
    evaluation of [Date.now()] yields a number of milliseconds. *)
Variable customFetch : nat -> Request -> Res Response.
Variable Date_now : nat -> Z.

(** Everything a method can read or change: the client's fields, the
    requests handed to [customFetch] so far (oldest first), and how often
    the clock has been read. *)
Record World := {
  client : t;
  fetch_log : list Request;
  clock_reads : nat;
}.

Definition M (A : Type) : Type := World -> Res A * World.

Definition ret {A} (a : A) : M A := fun w => (Ok a, w).
Definition throw {A} (e : Thrown) : M A := fun w => (Throw e, w).
Definition bind {A B} (m : M A) (k : A -> M B) : M B :=
  fun w =>
    match m w with
    | (Ok a, w') => k a w'
    | (Throw e, w') => (Throw e, w')
    end.

Notation "x <- m ;; k" := (bind m (fun x => k))
  (at level 100, m at next level, right associativity).

Definition this : M t := fun w => (Ok (client w), w).

Definition set_this (c : t) : M unit :=
  fun w => (Ok tt, {| client := c;
                      fetch_log := fetch_log w;
                      clock_reads := clock_reads w |}).

Definition now : M Z :=
  fun w => (Ok (Date_now (clock_reads w)),
            {| client := client w;
               fetch_log := fetch_log w;
               clock_reads := S (clock_reads w) |}).

Definition fetch (req : Request) : M Response :=
  fun w => (customFetch (length (fetch_log w)) req,
            {| client := client w;
               fetch_log := fetch_log w ++ [req];
               clock_reads := clock_reads w |}).

Definition lift {A} (r : Res A) : M A := fun w => (r, w).

(** The request [authenticate] sends. *)
Definition token_request (c : t) : Request :=
  {| url := authBaseUrl c +:+ "/oauth/token";
     method := "POST";
     headers := {[ "Content-Type" := "application/x-www-form-urlencoded" ]};
     body := FormBody [ ("grant_type", "refresh_token");
                        ("client_id", CLIENT_ID);
                        ("refresh_token", refreshToken c) ] |}.

(** [authenticate] from the point where [customFetch] has resolved. *)
Definition authenticate_response (response : Response) : M unit :=
  if negb (ok response) then
    throw (ErrorObj ("Authentication failed: " +:+ pretty (status response)
                       +:+ " - " +:+ text response))
  else
    data <- lift (json response) ;;
    c <- this ;;
    t <- now ;;
    set_this (set_session c (id_token (as_TokenResponse data))
                (t + expires_in (as_TokenResponse data) * 1000)).

Definition authenticate : M unit :=
  c <- this ;;
  response <- fetch (token_request c) ;;
  authenticate_response response.

(** The cached token is still valid (with the 60s buffer); [Date.now()]
    is only evaluated when [accessToken] is truthy. *)
Definition token_still_valid : M bool :=
  c <- this ;;
  if truthy (accessToken c) then
    t <- now ;;
    ret (t <? tokenExpiry c - 60000)
  else ret false.

Definition ensureAuthenticated : M unit :=
  valid <- token_still_valid ;;
  if valid then ret tt else authenticate.

(** [authMiddleware.onRequest]; [bearer_of] is the template string
    [`Bearer ${this.accessToken}`]. *)
Definition auth_exempt (u : string) : bool :=
  includes u "/oauth/token" || includes u "/generate-kubeconfig".

Definition set_header (k v : string) (request : Request) : Request :=
  {| url := url request;
     method := method request;
     headers := <[ k := v ]> (headers request);
     body := body request |}.

Definition bearer_of (tok : option string) : string :=
  "Bearer " +:+ match tok with Some s => s | None => "null" end.

Definition onRequest (request : Request) : M Request :=
  if auth_exempt (url request) then ret request
  else
    _ <- ensureAuthenticated ;;
    c <- this ;;
    if truthy (accessToken c) then
      ret (set_header "Authorization" (bearer_of (accessToken c)) request)
    else ret request.

(** A call through [this.client] (openapi-fetch): the library builds the
    request, runs the registered middleware on it and hands the result to
    the configured [fetch]. *)
Definition client_send (request : Request) : M Response :=
  request' <- onRequest request ;;
  fetch request'.

(** [generateKubeconfig] *)
Definition kubeconfig_request (c : t) (organizationName cloudspaceName : string)
  : Request :=
  {| url := apiBaseUrl c +:+ "/apis/auth.ngpc.rxt.io/v1/generate-kubeconfig";
     method := "POST";
     headers := {[ "Content-Type" := "application/json" ]};
     body := JsonBody [ ("organization_name", organizationName);
                        ("cloudspace_name", cloudspaceName);
                        ("refresh_token", refreshToken c) ] |}.

Definition generateKubeconfig (organizationName cloudspaceName : string)
  : M Json :=
  c <- this ;;
  response <- fetch (kubeconfig_request c organizationName cloudspaceName) ;;
  if negb (ok response) then
    throw (ErrorObj ("Failed to generate kubeconfig: "
                       +:+ pretty (status response) +:+ " - " +:+ text response))
  else lift (json response).

(** The three pricing calls share one shape: [ensureAuthenticated], then a
    [customFetch] with the bearer header written from [accessToken] (the
    template string, so [null] would be spelled out). *)
Definition pricing_request (c : t) (path : string) : Request :=
  {| url := apiBaseUrl c +:+ path;
     method := "GET";
     headers := {[ "Authorization" := bearer_of (accessToken c) ]};
     body := NoBody |}.

Definition pricing_call (path what : string) : M Json :=
  _ <- ensureAuthenticated ;;
  c <- this ;;
  response <- fetch (pricing_request c path) ;;
  if negb (ok response) then
    throw (ErrorObj ("Failed to get " +:+ what +:+ ": "
                       +:+ pretty (status response) +:+ " - " +:+ text response))
  else lift (json response).

Definition getPriceHistory (serverClass region : string) : M Json :=
  pricing_call ("/apis/ngpc.rxt.io/v1/serverclasses/" +:+ serverClass
                  +:+ "/regions/" +:+ region +:+ "/price-history")
               "price history".

Definition getMarketPriceCapacity : M Json :=
  pricing_call "/apis/pricing.ngpc.rxt.io/v1/market-price-capacity"
               "market price capacity".

Definition getPercentileInformation : M Json :=
  pricing_call "/apis/pricing.ngpc.rxt.io/v1/percentile"
               "percentile information".

(** An authentication exchange is a request carrying the refresh-token
    form; [exchanges] counts them in the log. *)
Definition is_exchange (r : Request) : bool :=
  match body r with
  | FormBody _ => true
  | _ => false
  end.

Definition exchanges (w : World) : nat :=
  length (filter (fun r => is_exchange r = true) (fetch_log w)).

(** *** Several callers of [ensureAuthenticated] in flight

    JavaScript runs one caller at a time and switches only at an [await].
    [ensureAuthenticated] has one suspension that matters: the
    [await this.customFetch(...)] inside [authenticate]. Up to there a
    caller runs without interruption (the validity test, then the call of
    [customFetch]); once the response is there it runs to its end (the
    awaits on [response.text()] and [response.json()] touch no field of
    the client). *)
Inductive Caller :=
  | Ready
  | Awaiting (ticket : nat) (request : Request)
  | Returned (ticket : option nat) (result : Res unit).

(** Run a caller up to its next suspension. [ticket] is the position of
    the caller's own request in [fetch_log]. *)
Definition resume (k : Caller) (w : World) : Caller * World :=
  match k with
  | Ready =>
      match token_still_valid w with
      | (Ok true, w1) => (Returned None (Ok tt), w1)
      | (Ok false, w1) =>
          let request := token_request (client w1) in
          (Awaiting (length (fetch_log w1)) request, snd (fetch request w1))
      | (Throw e, w1) => (Returned None (Throw e), w1)
      end
  | Awaiting n request =>
      match customFetch n request with
      | Ok response =>
          let '(r, w') := authenticate_response response w in
          (Returned (Some n) r, w')
      | Throw e => (Returned (Some n) (Throw e), w)
      end
  | Returned _ _ => (k, w)
  end.

Record Pool := {
  world : World;
  callers : list Caller;
}.

(** The scheduler picks caller [i]; a finished or missing caller is a
    no-op. *)
Definition run_caller (p : Pool) (i : nat) : Pool :=
  match callers p !! i with
  | Some k =>
      let '(k', w') := resume k (world p) in
      {| world := w'; callers := <[ i := k' ]> (callers p) |}
  | None => p
  end.

Definition run_schedule (schedule : list nat) (p : Pool) : Pool :=
  foldl run_caller p schedule.

Definition start (w : World) (n : nat) : Pool :=
  {| world := w; callers := replicate n Ready |}.

(** The caller found no valid session and went on to [authenticate]. *)
Definition observed_no_session (k : Caller) : bool :=
  match k with
  | Awaiting _ _ | Returned (Some _) _ => true
  | _ => false
  end.

Definition ticket_of (k : Caller) : option nat :=
  match k with
  | Awaiting n _ | Returned (Some n) _ => Some n
  | _ => None
  end.

(** What [authenticate] resolves or rejects with, given what its
    [customFetch] call came back with. *)
Definition auth_outcome (r : Res Response) : Res unit :=
  match r with
  | Throw e => Throw e
  | Ok response =>
      if negb (ok response) then
        Throw (ErrorObj ("Authentication failed: " +:+ pretty (status response)
                           +:+ " - " +:+ text response))
      else
        match json response with
        | Ok _ => Ok tt
        | Throw e => Throw e
        end
  end.

(** A caller that went on to [authenticate] has its own request in the
    log, at its ticket, and once it has returned, its result is what that
    request came back with. *)
Definition caller_owns (w : World) (k : Caller) : Prop :=
  match k with
  | Awaiting n request =>
      fetch_log w !! n = Some request ∧ is_exchange request = true
  | Returned (Some n) result =>
      ∃ request, fetch_log w !! n = Some request
                 ∧ is_exchange request = true
                 ∧ result = auth_outcome (customFetch n request)
  | _ => True
  end.

(** The pool has made one exchange per ticket on top of the [e0] made
    before, every caller owns its ticket, and no two callers share one. *)
Definition pool_ok (e0 : nat) (p : Pool) : Prop :=
  exchanges (world p) = (e0 + length (omap ticket_of (callers p)))%nat
  ∧ Forall (caller_owns (world p)) (callers p)
  ∧ ∀ i j ki kj n,
      i ≠ j -> callers p !! i = Some ki -> callers p !! j = Some kj ->
      ticket_of ki = Some n -> ticket_of kj ≠ Some n.

End WithEnvironment.

End SpotClient.

(** ** tests/spot-client.test.ts

    The mock environment of the unit tests: the token endpoint answers
    with a fixed token that lasts a day, or with a 401. *)

Module Mock.
Import SpotClient.

Definition mockRefreshToken : string := "test-refresh-token".

Definition tokens : TokenResponse :=
  {| access_token := "mock-access-token";
     id_token := "mock-id-token";
     scope := EmptyString;
     expires_in := 86400;
     token_type := "Bearer" |}.

(** What the mock bodies parse to: the token record, or an error object. *)
Inductive MockJson :=
  | TokenData (data : TokenResponse)
  | ErrorData (error : string).

(** The cast to [TokenResponse]; an error object has none of the fields. *)
Definition mock_cast (data : MockJson) : TokenResponse :=
  match data with
  | TokenData t => t
  | ErrorData _ =>
      {| access_token := EmptyString; id_token := EmptyString;
         scope := EmptyString; expires_in := 0; token_type := EmptyString |}
  end.

Abbreviation MockResponse := (Response (Json:=MockJson)).

Definition granted : MockResponse :=
  {| ok := true; status := 200; text := "{}"; json := Ok (TokenData tokens) |}.

(** The body [{ error: "Invalid refresh token" }] as text. *)
Definition denied_text : string :=
  "{" +:+ dquote +:+ "error" +:+ dquote +:+ ":"
  +:+ dquote +:+ "Invalid refresh token" +:+ dquote +:+ "}".

Definition denied : MockResponse :=
  {| ok := false; status := 401; text := denied_text;
     json := Ok (ErrorData "Invalid refresh token") |}.

(** Every call is granted; every call is denied; only the first is granted. *)
Definition mockFetch (n : nat) (request : Request) : Res MockResponse :=
  Ok granted.

Definition denyingFetch (n : nat) (request : Request) : Res MockResponse :=
  Ok denied.

Definition grantOnceFetch (n : nat) (request : Request) : Res MockResponse :=
  match n with
  | O => Ok granted
  | S _ => Ok denied
  end.

(** A clock that advances one second per reading. *)
Definition clock (n : nat) : Z := 1700000000000 + 1000 * Z.of_nat n.

Definition fresh : World :=
  {| client := new {| cfg_refreshToken := mockRefreshToken;
                      cfg_baseUrl := None;
                      cfg_authUrl := None |};
     fetch_log := [];
     clock_reads := 0 |}.






End Mock.

(** ** src/index.ts *)

Module Server.

(** Values an argument object can hold. *)
Inductive JsValue :=
  | JUndefined
  | JNull
  | JBool (b : bool)
  | JNum (n : Z)
  | JStr (s : string).

(** [request.params.arguments]: a record, or [undefined]. *)
Definition Args : Type := option (gmap string JsValue).

(** [args?.key] *)
Definition arg (args : Args) (key : string) : JsValue :=
  match args with
  | Some a => default JUndefined (a !! key)
  | None => JUndefined
  end.

(** *** Tool objects *)

Record Property := {
  p_type : string;
  p_description : string;
}.

Record InputSchema := {
  s_type : string;
  properties : list (string * Property);
  required : list string;
}.

(** A property value of a tool object. *)
Inductive Field :=
  | FStr (s : string)
  | FBool (b : bool)
  | FSchema (s : InputSchema).

(** A [SpotTool] (and a [Tool]) is a JavaScript object: a finite map from
    property names to values. [writable] is optional. *)
Abbreviation Obj := (gmap string Field).

Definition truthy_field (v : option Field) : bool :=
  match v with
  | Some (FBool b) => b
  | Some (FStr (String _ _)) => true
  | Some (FSchema _) => true
  | _ => false
  end.

Definition prop (ty description : string) : Property :=
  {| p_type := ty; p_description := description |}.

Definition schema (props : list (string * Property)) (req : list string)
  : InputSchema :=
  {| s_type := "object"; properties := props; required := req |}.

(** An entry of [allTools] without the [writable] property. *)
Definition tool (name description : string) (inputSchema : InputSchema) : Obj :=
  {[ "name" := FStr name;
     "description" := FStr description;
     "inputSchema" := FSchema inputSchema ]}.

(** An entry of [allTools] with [writable: true]. *)
Definition writable_tool (name description : string) (inputSchema : InputSchema)
  : Obj :=
  <[ "writable" := FBool true ]> (tool name description inputSchema).

Definition WRITABLE_TOOLS : gset string :=
  list_to_set [ "create_cloudspace";
                "delete_cloudspace";
                "create_spot_node_pool";
                "delete_spot_node_pool";
                "create_ondemand_node_pool";
                "delete_ondemand_node_pool" ].

Definition namespace_prop : string * Property :=
  ("namespace", prop "string" "Organization namespace (e.g., org-xxxxx)").

(** The array literal [allTools], in source order. *)
Definition allTools_literal : list Obj := [
  (* Regions *)
  tool "list_regions"
    "List all available Rackspace Spot regions where cloudspaces can be deployed. Returns region names, countries, and provider information."
    (schema [] []);
  tool "get_region"
    "Get detailed information about a specific Rackspace Spot region by name."
    (schema [ ("name", prop "string"
                 "Region name (e.g., us-central-dfw-1, us-east-iad-1, eu-west-lon-1)") ]
            [ "name" ]);
  (* Server Classes *)
  tool "list_server_classes"
    "List all available server classes (machine types) that can be used for node pools. Returns CPU, memory, and pricing information."
    (schema [] []);
  tool "get_server_class"
    "Get detailed information about a specific server class by name."
    (schema [ ("name", prop "string"
                 "Server class name (e.g., gp.vs1.small-dfw, m3.medium)") ]
            [ "name" ]);
  (* Organizations *)
  tool "list_organizations"
    "List all organizations the user has access to. Returns organization names and their associated namespaces (org-xxx format) needed for other API calls."
    (schema [] []);
  (* Cloudspaces *)
  tool "list_cloudspaces"
    "List all Kubernetes cloudspaces (clusters) in a specific organization namespace."
    (schema [ namespace_prop ] [ "namespace" ]);
  tool "get_cloudspace"
    "Get detailed information about a specific cloudspace including its status, region, and configuration."
    (schema [ namespace_prop; ("name", prop "string" "Cloudspace name") ]
            [ "namespace"; "name" ]);
  writable_tool "create_cloudspace"
    "Create a new Kubernetes cloudspace (cluster) in a specific region. The cloudspace will be fully managed by Rackspace Spot."
    (schema [ namespace_prop;
              ("name", prop "string" "Name for the new cloudspace");
              ("region", prop "string"
                 "Region to deploy the cloudspace (e.g., us-central-dfw-1)");
              ("haControlPlane", prop "boolean"
                 "Enable high-availability control plane (default: false, costs extra)") ]
            [ "namespace"; "name"; "region" ]);
  writable_tool "delete_cloudspace"
    "Delete a cloudspace and all its associated resources. This action is irreversible."
    (schema [ namespace_prop; ("name", prop "string" "Cloudspace name to delete") ]
            [ "namespace"; "name" ]);
  (* Spot Node Pools *)
  tool "list_spot_node_pools"
    "List all spot node pools in a cloudspace. Spot nodes use auction-based pricing for significant cost savings."
    (schema [ namespace_prop; ("cloudspaceName", prop "string" "Cloudspace name") ]
            [ "namespace"; "cloudspaceName" ]);
  tool "get_spot_node_pool"
    "Get detailed information about a specific spot node pool including bid price, node count, and status."
    (schema [ namespace_prop; ("name", prop "string" "Spot node pool name") ]
            [ "namespace"; "name" ]);
  writable_tool "create_spot_node_pool"
    "Create a new spot node pool with auction-based pricing. Set a maximum bid price per hour for significant cost savings."
    (schema [ namespace_prop;
              ("name", prop "string" "Name for the new spot node pool");
              ("cloudspaceName", prop "string" "Cloudspace to add the node pool to");
              ("serverClassName", prop "string"
                 "Server class for nodes (e.g., gp.vs1.small-dfw)");
              ("bidPrice", prop "string"
                 "Maximum bid price per hour (e.g., '0.05' for $0.05/hr)");
              ("minNodes", prop "number" "Minimum number of nodes (default: 0)");
              ("maxNodes", prop "number"
                 "Maximum number of nodes for autoscaling (default: 10)");
              ("desiredNodes", prop "number"
                 "Initial desired number of nodes (default: 1)") ]
            [ "namespace"; "name"; "cloudspaceName"; "serverClassName"; "bidPrice" ]);
  writable_tool "delete_spot_node_pool"
    "Delete a spot node pool from a cloudspace."
    (schema [ namespace_prop; ("name", prop "string" "Spot node pool name to delete") ]
            [ "namespace"; "name" ]);
  (* On-Demand Node Pools *)
  tool "list_ondemand_node_pools"
    "List all on-demand node pools in a cloudspace. On-demand nodes have fixed pricing and guaranteed availability."
    (schema [ namespace_prop; ("cloudspaceName", prop "string" "Cloudspace name") ]
            [ "namespace"; "cloudspaceName" ]);
  tool "get_ondemand_node_pool"
    "Get detailed information about a specific on-demand node pool."
    (schema [ namespace_prop; ("name", prop "string" "On-demand node pool name") ]
            [ "namespace"; "name" ]);
  writable_tool "create_ondemand_node_pool"
    "Create a new on-demand node pool with fixed pricing and guaranteed availability."
    (schema [ namespace_prop;
              ("name", prop "string" "Name for the new on-demand node pool");
              ("cloudspaceName", prop "string" "Cloudspace to add the node pool to");
              ("serverClassName", prop "string"
                 "Server class for nodes (e.g., gp.vs1.small-dfw)");
              ("minNodes", prop "number" "Minimum number of nodes (default: 0)");
              ("maxNodes", prop "number"
                 "Maximum number of nodes for autoscaling (default: 10)");
              ("desiredNodes", prop "number"
                 "Initial desired number of nodes (default: 1)") ]
            [ "namespace"; "name"; "cloudspaceName"; "serverClassName" ]);
  writable_tool "delete_ondemand_node_pool"
    "Delete an on-demand node pool from a cloudspace."
    (schema [ namespace_prop;
              ("name", prop "string" "On-demand node pool name to delete") ]
            [ "namespace"; "name" ]);
  (* Kubeconfig *)
  tool "get_kubeconfig"
    "Generate a kubeconfig file for accessing a cloudspace's Kubernetes cluster with kubectl."
    (schema [ ("organizationName", prop "string" "Organization name (not namespace)");
              ("cloudspaceName", prop "string" "Cloudspace name") ]
            [ "organizationName"; "cloudspaceName" ]);
  (* Pricing *)
  tool "get_market_pricing"
    "Get current market pricing and capacity information for all server classes across regions. Useful for determining optimal bid prices."
    (schema [] []);
  tool "get_price_history"
    "Get historical price data for a specific server class in a region. Useful for understanding price trends."
    (schema [ ("serverClass", prop "string" "Server class name");
              ("region", prop "string" "Region name") ]
            [ "serverClass"; "region" ]);
  tool "get_percentile_pricing"
    "Get percentile pricing information showing price distribution for server classes. Useful for setting competitive bid prices."
    (schema [] [])
].

(** *** The object store

    [allTools] holds references to objects; [filter] copies references and
    [map] builds new objects. The store is a growing array of objects, a
    reference is an index into it, and the catalog literals are allocated
    first, so [allTools] is the references [0 .. 20]. *)
Abbreviation Heap := (list Obj).
Abbreviation Ref := nat.

Definition allTools : list Ref := seq 0 (length allTools_literal).

(** [o.key] through a reference *)
Definition get (h : Heap) (r : Ref) (key : string) : option Field :=
  h !! r ≫= fun o => o !! key.

Definition alloc (o : Obj) (h : Heap) : Ref * Heap := (length h, h ++ [o]).

(** [process.env] *)
Abbreviation Env := (gmap string string).

Definition isReadOnly (env : Env) : bool :=
  match env !! "RACKSPACE_SPOT_READ_ONLY" with
  | Some envValue => String.eqb envValue "true" || String.eqb envValue "1"
  | None => false
  end.

Definition refresh_token_required : string :=
  "RACKSPACE_SPOT_REFRESH_TOKEN environment variable is required. "
  +:+ "Get your refresh token from https://spot.rackspace.com/ui/api-access/terraform".

Definition getRefreshToken (env : Env) : Res string :=
  match env !! "RACKSPACE_SPOT_REFRESH_TOKEN" with
  | Some (String a token) => Ok (String a token)
  | _ => Throw (ErrorObj refresh_token_required)
  end.

(** The methods of [SpotClient] the handler calls, with the arguments it
    passes ([as string] and the like do nothing at run time). *)
Inductive ClientCall :=
  | listRegions
  | getRegion (name : JsValue)
  | listServerClasses
  | getServerClass (name : JsValue)
  | listOrganizations
  | listCloudspaces (namespace : JsValue)
  | getCloudspace (namespace name : JsValue)
  | createCloudspace (namespace name region haControlPlane : JsValue)
  | deleteCloudspace (namespace name : JsValue)
  | listSpotNodePools (namespace cloudspaceName : JsValue)
  | getSpotNodePool (namespace name : JsValue)
  | createSpotNodePool (namespace name cloudspaceName serverClassName bidPrice
                          minNodes maxNodes desiredNodes : JsValue)
  | deleteSpotNodePool (namespace name : JsValue)
  | listOnDemandNodePools (namespace cloudspaceName : JsValue)
  | getOnDemandNodePool (namespace name : JsValue)
  | createOnDemandNodePool (namespace name cloudspaceName serverClassName
                              minNodes maxNodes desiredNodes : JsValue)
  | deleteOnDemandNodePool (namespace name : JsValue)
  | generateKubeconfig (organizationName cloudspaceName : JsValue)
  | getMarketPriceCapacity
  | getPriceHistory (serverClass region : JsValue)
  | getPercentileInformation.

(** The [switch (name)] of the call handler: the case labels in source
    order, each with the call it makes. *)
Definition cases (args : Args) : list (string * ClientCall) :=
  let a := arg args in [
  ("list_regions", listRegions);
  ("get_region", getRegion (a "name"));
  ("list_server_classes", listServerClasses);
  ("get_server_class", getServerClass (a "name"));
  ("list_organizations", listOrganizations);
  ("list_cloudspaces", listCloudspaces (a "namespace"));
  ("get_cloudspace", getCloudspace (a "namespace") (a "name"));
  ("create_cloudspace",
     createCloudspace (a "namespace") (a "name") (a "region") (a "haControlPlane"));
  ("delete_cloudspace", deleteCloudspace (a "namespace") (a "name"));
  ("list_spot_node_pools", listSpotNodePools (a "namespace") (a "cloudspaceName"));
  ("get_spot_node_pool", getSpotNodePool (a "namespace") (a "name"));
  ("create_spot_node_pool",
     createSpotNodePool (a "namespace") (a "name") (a "cloudspaceName")
       (a "serverClassName") (a "bidPrice")
       (a "minNodes") (a "maxNodes") (a "desiredNodes"));
  ("delete_spot_node_pool", deleteSpotNodePool (a "namespace") (a "name"));
  ("list_ondemand_node_pools",
     listOnDemandNodePools (a "namespace") (a "cloudspaceName"));
  ("get_ondemand_node_pool", getOnDemandNodePool (a "namespace") (a "name"));
  ("create_ondemand_node_pool",
     createOnDemandNodePool (a "namespace") (a "name") (a "cloudspaceName")
       (a "serverClassName") (a "minNodes") (a "maxNodes") (a "desiredNodes"));
  ("delete_ondemand_node_pool", deleteOnDemandNodePool (a "namespace") (a "name"));
  ("get_kubeconfig", generateKubeconfig (a "organizationName") (a "cloudspaceName"));
  ("get_market_pricing", getMarketPriceCapacity);
  ("get_price_history", getPriceHistory (a "serverClass") (a "region"));
  ("get_percentile_pricing", getPercentileInformation)
  ].

(** The first case whose label is [name]; [None] is the [default] branch. *)
Definition switch (name : string) (args : Args) : option ClientCall :=
  snd <$> find (fun c => String.eqb name (fst c)) (cases args).

(** The result envelope. [isError] is absent on success. *)
Record ContentItem := {
  type : string;
  text : string;
}.

Record CallToolResult := {
  content : list ContentItem;
  isError : option bool;
}.

Definition text_item (s : string) : ContentItem :=
  {| type := "text"; text := s |}.

Definition error_result (s : string) : CallToolResult :=
  {| content := [ text_item s ]; isError := Some true |}.

Definition read_only_message (name : string) : string :=
  "Error: Tool " +:+ dquote +:+ name +:+ dquote
  +:+ " is not available in read-only mode. "
  +:+ "Set RACKSPACE_SPOT_READ_ONLY=false to enable write operations.".

(** The [catch] block. *)
Definition caught (error : Thrown) : CallToolResult :=
  let message :=
    match error with
    | ErrorObj message => message
    | NonError shown => shown
    end in
  error_result ("Error: " +:+ message).

(** *** The server *)

Section Handlers.

(** What the methods of [SpotClient] do is left open here: a call acts on
    the client and resolves to some data or rejects. [JSON_stringify] is
    [JSON.stringify(result, null, 2)]. *)
Context {Data : Type}.
Variable spotClient : SpotClient.t -> ClientCall -> Res Data * SpotClient.t.
Variable JSON_stringify : Data -> string.

(** The state [main] sets up: the environment, the object store holding
    the catalog, the lazily created [client], and (for the record) the
    client methods called so far, oldest first. *)
Record State := {
  env : Env;
  heap : Heap;
  client : option SpotClient.t;
  calls : list ClientCall;
}.

Definition getClient (σ : State) : Res SpotClient.t * State :=
  match client σ with
  | Some c => (Ok c, σ)
  | None =>
      match getRefreshToken (env σ) with
      | Ok token =>
          let c := SpotClient.new {| SpotClient.cfg_refreshToken := token;
                                     SpotClient.cfg_baseUrl := None;
                                     SpotClient.cfg_authUrl := None |} in
          (Ok c, {| env := env σ; heap := heap σ;
                    client := Some c; calls := calls σ |})
      | Throw e => (Throw e, σ)
      end
  end.

(** [tools.map(({ writable, ...rest }) => rest)]: one new object per
    element, holding every property of the old one but [writable]; the old
    one is left as it is. (Property values are immutable here, so that the
    new object shares its [inputSchema] with the old one does not show.) *)
Fixpoint map_rest (tools : list Ref) (h : Heap) : list Ref * Heap :=
  match tools with
  | [] => ([], h)
  | r :: tools' =>
      let '(r', h1) := alloc (delete "writable" (default ∅ (h !! r))) h in
      let '(rs, h2) := map_rest tools' h1 in
      (r' :: rs, h2)
  end.

(** The [ListToolsRequestSchema] handler; the result is [publicTools]. *)
Definition listTools (σ : State) : list Ref * State :=
  let readOnly := isReadOnly (env σ) in
  let tools :=
    if readOnly
    then filter (fun r => truthy_field (get (heap σ) r "writable") = false) allTools
    else allTools in
  let '(publicTools, h) := map_rest tools (heap σ) in
  (publicTools, {| env := env σ; heap := h;
                   client := client σ; calls := calls σ |}).

(** The objects a list of references stands for, as they go on the wire. *)
Definition deref (h : Heap) (rs : list Ref) : list Obj :=
  omap (fun r => h !! r) rs.

Definition listed (σ : State) : list Obj :=
  let '(publicTools, σ') := listTools σ in deref (heap σ') publicTools.

Definition name_of (o : Obj) : option Field := o !! "name".

(** The [CallToolRequestSchema] handler. *)
Definition callTool (name : string) (args : Args) (σ : State)
  : CallToolResult * State :=
  if isReadOnly (env σ) && bool_decide (name ∈ WRITABLE_TOOLS) then
    (error_result (read_only_message name), σ)
  else
    match getClient σ with
    | (Throw e, σ1) => (caught e, σ1)
    | (Ok c, σ1) =>
        match switch name args with
        | None => (caught (ErrorObj ("Unknown tool: " +:+ name)), σ1)
        | Some call =>
            let '(result, c') := spotClient c call in
            let σ2 := {| env := env σ1; heap := heap σ1;
                         client := Some c'; calls := calls σ1 ++ [call] |} in
            match result with
            | Ok data =>
                ({| content := [ text_item (JSON_stringify data) ];
                    isError := None |}, σ2)
            | Throw e => (caught e, σ2)
            end
        end
    end.

(** [main] and the process around it. [connect] is how
    [server.connect(transport)] settles; a rejection of [main] reaches
    [process.exit(1)]. *)
Inductive Process :=
  | Running (σ : State)
  | Exited (code : Z).

(** The state once [main] has connected: the catalog allocated, no client
    yet. *)
Definition started (e : Env) : State :=
  {| env := e; heap := allTools_literal; client := None; calls := [] |}.

Definition main (e : Env) (connect : Res unit) : Process :=
  match connect with
  | Ok _ => Running (started e)
  | Throw _ => Exited 1
  end.

Inductive Incoming :=
  | ListTools
  | CallTool (name : string) (args : Args).

Inductive Reply :=
  | Tools (tools : list Obj)
  | ToolResult (result : CallToolResult).

Definition serve (p : Process) (request : Incoming) : option Reply * Process :=
  match p with
  | Exited code => (None, Exited code)
  | Running σ =>
      match request with
      | ListTools =>
          let '(publicTools, σ') := listTools σ in
          (Some (Tools (deref (heap σ') publicTools)), Running σ')
      | CallTool name args =>
          let '(result, σ') := callTool name args σ in
          (Some (ToolResult result), Running σ')
      end
  end.

End Handlers.

(** *** Vocabulary for the statements below *)

(** The [name] of a tool object, when it is a string. *)
Definition tool_name (o : Obj) : option string :=
  match o !! "name" with
  | Some (FStr s) => Some s
  | _ => None
  end.

Definition names (tools : list Obj) : list string := omap tool_name tools.

(** The entry is tagged [writable]. *)
Definition is_writable (o : Obj) : bool := truthy_field (o !! "writable").

(** The store still starts with the catalog as [main] allocated it. *)
Definition catalog_in (h : Heap) : Prop :=
  take (length allTools_literal) h = allTools_literal.

(** The references [listTools] maps over, in either mode, and the catalog
    entries they stand for. *)
Definition shown (σ : State) : list Ref :=
  if isReadOnly (env σ)
  then filter (fun r => truthy_field (get (heap σ) r "writable") = false) allTools
  else allTools.

Definition visible (e : Env) : list Obj :=
  if isReadOnly e
  then filter (fun o => is_writable o = false) allTools_literal
  else allTools_literal.

(** The three properties of the public [Tool] shape. *)
Definition public_keys : gset string :=
  {[ "name"; "description"; "inputSchema" ]}.

(** *** tests/read-only-mode.integration.test.ts

    The environments the test servers are started with, one without the
    refresh token, and stand-ins for the client's methods. *)

Definition readOnlyEnv : Env :=
  {[ "RACKSPACE_SPOT_REFRESH_TOKEN" := "test-token";
     "RACKSPACE_SPOT_READ_ONLY" := "true" ]}.

Definition readWriteEnv : Env :=
  {[ "RACKSPACE_SPOT_REFRESH_TOKEN" := "test-token";
     "RACKSPACE_SPOT_READ_ONLY" := "false" ]}.

Definition noTokenEnv : Env := ∅.

(** Every method resolves to nothing / rejects with a transport error. *)
Definition quietClient (c : SpotClient.t) (call : ClientCall)
  : Res unit * SpotClient.t :=
  (Ok tt, c).

Definition failingClient (c : SpotClient.t) (call : ClientCall)
  : Res unit * SpotClient.t :=
  (Throw (ErrorObj "Failed to list regions: {}"), c).

Definition stringify_unit (data : unit) : string := "null".

(** The [create_cloudspace] entry of the catalog and the arguments the
    test calls it with; the empty argument object. *)
Definition create_cloudspace_entry : Obj :=
  default ∅ (allTools_literal !! 7%nat).

Definition create_cloudspace_args : Args :=
  Some {[ "namespace" := JStr "org-test";
          "name" := JStr "test-cloudspace";
          "region" := JStr "us-central-dfw-1" ]}.

Definition no_args : Args := Some ∅.

End Server.

(** ** src/client/spot-client.ts, the resource methods

    The methods that go through [this.client], the openapi-fetch instance.
    What the library does on its own is left open: how it turns a method, a
    path template and the options into a [Request] ([createRequest]) and
    how it splits a response into [data] and [error] ([parse]). What the
    class fixes is modelled: the call each method makes, the middleware the
    request passes, and what becomes of [data] and [error]. Arguments are
    run-time values: the casts of the call handler check nothing. *)

Module Api.
Import SpotClient.

Abbreviation JsValue := Server.JsValue.
Abbreviation JUndefined := Server.JUndefined.
Abbreviation JNull := Server.JNull.
Abbreviation JBool := Server.JBool.
Abbreviation JNum := Server.JNum.
Abbreviation JStr := Server.JStr.

(** Truthiness of a value, as in [cloudspaceName ? ... : undefined]. *)
Definition truthy_value (v : JsValue) : bool :=
  match v with
  | JUndefined | JNull => false
  | JBool b => b
  | JNum n => negb (n =? 0)
  | JStr EmptyString => false
  | JStr (String _ _) => true
  end.

(** [String(v)], what a template string writes for [${v}]. *)
Definition String_of (v : JsValue) : string :=
  match v with
  | JUndefined => "undefined"
  | JNull => "null"
  | JBool true => "true"
  | JBool false => "false"
  | JNum n => pretty n
  | JStr s => s
  end.

(** [v ?? d] *)
Definition nullish (v d : JsValue) : JsValue :=
  match v with
  | JUndefined | JNull => d
  | _ => v
  end.

(** An object literal handed over as a request body. *)
Local Set Warnings "-register-all".
Inductive Payload :=
  | PVal (v : JsValue)
  | PObj (fields : list (string * Payload)).

(** The options of a library call: [params.path], [params.query] and
    [body]; [query] and [body] may be absent. *)
Record Options := {
  path : list (string * JsValue);
  query : option (list (string * JsValue));
  payload : option Payload;
}.

Section WithLibrary.

Context {Json : Type}.
Variable as_TokenResponse : Json -> TokenResponse.
Variable customFetch : nat -> Request -> Res (Response (Json:=Json)).
Variable Date_now : nat -> Z.

(** What a library call resolves to. *)
Record FetchResult := {
  data : option Json;
  error : option Json;
}.

(** openapi-fetch: the request it builds from the base URL, the method,
    the path template and the options, and what it makes of the response
    (it may reject, say on a body that does not parse). *)
Variable createRequest : string -> string -> string -> option Options -> Request.
Variable parse : Response (Json:=Json) -> Res FetchResult.

(** [JSON.stringify] on an error value, truthiness of such a value, and
    [JSON.stringify] on a body object literal. *)
Variable JSON_stringify : Json -> string.
Variable truthy_json : Json -> bool.
Variable JSON_body : Payload -> Body.

Notation "x <- m ;; k" := (bind m (fun x => k))
  (at level 100, m at next level, right associativity).

(** [this.client.GET(...)] and its siblings: build the request, run it
    through [authMiddleware], fetch, parse. *)
Definition call (method path : string) (options : option Options) : M FetchResult :=
  c <- this ;;
  response <- client_send as_TokenResponse customFetch Date_now
                (createRequest (apiBaseUrl c) method path options) ;;
  lift (parse response).

Definition GET := call "GET".
Definition POST := call "POST".
Definition DELETE := call "DELETE".

(** [if (error) throw new Error(`Failed to ...: ${JSON.stringify(error)}`);
    return data;] *)
Definition unwrap (failed : string) (r : FetchResult) : M (option Json) :=
  match error r with
  | Some e =>
      if truthy_json e
      then throw (ErrorObj (failed +:+ JSON_stringify e))
      else ret (data r)
  | None => ret (data r)
  end.

Definition in_path (fields : list (string * JsValue)) : option Options :=
  Some {| path := fields; query := None; payload := None |}.

(** Regions *)

Definition listRegions : M (option Json) :=
  r <- GET "/apis/ngpc.rxt.io/v1/regions" None ;;
  unwrap "Failed to list regions: " r.

Definition getRegion (name : JsValue) : M (option Json) :=
  r <- GET "/apis/ngpc.rxt.io/v1/regions/{name}" (in_path [ ("name", name) ]) ;;
  unwrap "Failed to get region: " r.

(** Server classes *)

Definition listServerClasses : M (option Json) :=
  r <- GET "/apis/ngpc.rxt.io/v1/serverclasses" None ;;
  unwrap "Failed to list server classes: " r.

Definition getServerClass (name : JsValue) : M (option Json) :=
  r <- GET "/apis/ngpc.rxt.io/v1/serverclasses/{name}" (in_path [ ("name", name) ]) ;;
  unwrap "Failed to get server class: " r.

(** Organizations *)

Definition listOrganizations : M (option Json) :=
  r <- GET "/apis/auth.ngpc.rxt.io/v1/organizations" None ;;
  unwrap "Failed to list organizations: " r.

(** Cloudspaces *)

Definition listCloudspaces (namespace : JsValue) : M (option Json) :=
  r <- GET "/apis/ngpc.rxt.io/v1/namespaces/{namespace}/cloudspaces"
         (in_path [ ("namespace", namespace) ]) ;;
  unwrap "Failed to list cloudspaces: " r.

Definition getCloudspace (namespace name : JsValue) : M (option Json) :=
  r <- GET "/apis/ngpc.rxt.io/v1/namespaces/{namespace}/cloudspaces/{name}"
         (in_path [ ("namespace", namespace); ("name", name) ]) ;;
  unwrap "Failed to get cloudspace: " r.

Definition cloudspace_body (namespace name region haControlPlane : JsValue)
  : Payload :=
  PObj [ ("apiVersion", PVal (JStr "ngpc.rxt.io/v1"));
         ("kind", PVal (JStr "CloudSpace"));
         ("metadata", PObj [ ("name", PVal name);
                             ("namespace", PVal namespace) ]);
         ("spec", PObj [ ("region", PVal region);
                         ("haControlPlane",
                            PVal (nullish haControlPlane (JBool false))) ]) ].

Definition createCloudspace (namespace name region haControlPlane : JsValue)
  : M (option Json) :=
  r <- POST "/apis/ngpc.rxt.io/v1/namespaces/{namespace}/cloudspaces"
         (Some {| path := [ ("namespace", namespace) ];
                  query := None;
                  payload := Some (cloudspace_body namespace name region
                                     haControlPlane) |}) ;;
  unwrap "Failed to create cloudspace: " r.

Definition deleteCloudspace (namespace name : JsValue) : M (option Json) :=
  r <- DELETE "/apis/ngpc.rxt.io/v1/namespaces/{namespace}/cloudspaces/{name}"
         (in_path [ ("namespace", namespace); ("name", name) ]) ;;
  unwrap "Failed to delete cloudspace: " r.

(** Node pools. The two list methods filter by cloudspace only when
    [cloudspaceName] is truthy. *)

Definition by_cloudspace (cloudspaceName : JsValue)
  : option (list (string * JsValue)) :=
  if truthy_value cloudspaceName
  then Some [ ("labelSelector",
               JStr ("ngpc.rxt.io/cloudspace=" +:+ String_of cloudspaceName)) ]
  else None.

Definition listSpotNodePools (namespace cloudspaceName : JsValue)
  : M (option Json) :=
  r <- GET "/apis/ngpc.rxt.io/v1/namespaces/{namespace}/spotnodepools"
         (Some {| path := [ ("namespace", namespace) ];
                  query := by_cloudspace cloudspaceName;
                  payload := None |}) ;;
  unwrap "Failed to list spot node pools: " r.

Definition getSpotNodePool (namespace name : JsValue) : M (option Json) :=
  r <- GET "/apis/ngpc.rxt.io/v1/namespaces/{namespace}/spotnodepools/{name}"
         (in_path [ ("namespace", namespace); ("name", name) ]) ;;
  unwrap "Failed to get spot node pool: " r.

Definition autoscaling (minNodes maxNodes : JsValue) : Payload :=
  PObj [ ("minNodes", PVal (nullish minNodes (JNum 0)));
         ("maxNodes", PVal (nullish maxNodes (JNum 10))) ].

Definition pool_metadata (namespace name cloudspaceName : JsValue) : Payload :=
  PObj [ ("name", PVal name);
         ("namespace", PVal namespace);
         ("labels", PObj [ ("ngpc.rxt.io/cloudspace", PVal cloudspaceName) ]) ].

Definition spot_pool_body
  (namespace name cloudspaceName serverClassName bidPrice
     minNodes maxNodes desiredNodes : JsValue) : Payload :=
  PObj [ ("apiVersion", PVal (JStr "ngpc.rxt.io/v1"));
         ("kind", PVal (JStr "SpotNodePool"));
         ("metadata", pool_metadata namespace name cloudspaceName);
         ("spec", PObj [ ("cloudspace", PVal cloudspaceName);
                         ("serverClass", PVal serverClassName);
                         ("bidPrice", PVal bidPrice);
                         ("autoscaling", autoscaling minNodes maxNodes);
                         ("desired", PVal (nullish desiredNodes (JNum 1))) ]) ].

Definition createSpotNodePool
  (namespace name cloudspaceName serverClassName bidPrice
     minNodes maxNodes desiredNodes : JsValue) : M (option Json) :=
  r <- POST "/apis/ngpc.rxt.io/v1/namespaces/{namespace}/spotnodepools"
         (Some {| path := [ ("namespace", namespace) ];
                  query := None;
                  payload := Some (spot_pool_body namespace name cloudspaceName
                                     serverClassName bidPrice
                                     minNodes maxNodes desiredNodes) |}) ;;
  unwrap "Failed to create spot node pool: " r.

Definition deleteSpotNodePool (namespace name : JsValue) : M (option Json) :=
  r <- DELETE "/apis/ngpc.rxt.io/v1/namespaces/{namespace}/spotnodepools/{name}"
         (in_path [ ("namespace", namespace); ("name", name) ]) ;;
  unwrap "Failed to delete spot node pool: " r.

Definition listOnDemandNodePools (namespace cloudspaceName : JsValue)
  : M (option Json) :=
  r <- GET "/apis/ngpc.rxt.io/v1/namespaces/{namespace}/ondemandnodepools"
         (Some {| path := [ ("namespace", namespace) ];
                  query := by_cloudspace cloudspaceName;
                  payload := None |}) ;;
  unwrap "Failed to list on-demand node pools: " r.

Definition getOnDemandNodePool (namespace name : JsValue) : M (option Json) :=
  r <- GET "/apis/ngpc.rxt.io/v1/namespaces/{namespace}/ondemandnodepools/{name}"
         (in_path [ ("namespace", namespace); ("name", name) ]) ;;
  unwrap "Failed to get on-demand node pool: " r.

Definition ondemand_pool_body
  (namespace name cloudspaceName serverClassName
     minNodes maxNodes desiredNodes : JsValue) : Payload :=
  PObj [ ("apiVersion", PVal (JStr "ngpc.rxt.io/v1"));
         ("kind", PVal (JStr "OnDemandNodePool"));
         ("metadata", pool_metadata namespace name cloudspaceName);
         ("spec", PObj [ ("cloudspace", PVal cloudspaceName);
                         ("serverClass", PVal serverClassName);
                         ("autoscaling", autoscaling minNodes maxNodes);
                         ("desired", PVal (nullish desiredNodes (JNum 1))) ]) ].

Definition createOnDemandNodePool
  (namespace name cloudspaceName serverClassName
     minNodes maxNodes desiredNodes : JsValue) : M (option Json) :=
  r <- POST "/apis/ngpc.rxt.io/v1/namespaces/{namespace}/ondemandnodepools"
         (Some {| path := [ ("namespace", namespace) ];
                  query := None;
                  payload := Some (ondemand_pool_body namespace name cloudspaceName
                                     serverClassName
                                     minNodes maxNodes desiredNodes) |}) ;;
  unwrap "Failed to create on-demand node pool: " r.

Definition deleteOnDemandNodePool (namespace name : JsValue) : M (option Json) :=
  r <- DELETE "/apis/ngpc.rxt.io/v1/namespaces/{namespace}/ondemandnodepools/{name}"
         (in_path [ ("namespace", namespace); ("name", name) ]) ;;
  unwrap "Failed to delete on-demand node pool: " r.

(** [generateKubeconfig] on run-time values: the body is
    [JSON.stringify] of the object literal. *)
Definition kubeconfig_payload (c : t) (organizationName cloudspaceName : JsValue)
  : Payload :=
  PObj [ ("organization_name", PVal organizationName);
         ("cloudspace_name", PVal cloudspaceName);
         ("refresh_token", PVal (JStr (refreshToken c))) ].

Definition kubeconfig_request (c : t) (organizationName cloudspaceName : JsValue)
  : Request :=
  {| url := apiBaseUrl c +:+ "/apis/auth.ngpc.rxt.io/v1/generate-kubeconfig";
     method := "POST";
     headers := {[ "Content-Type" := "application/json" ]};
     body := JSON_body (kubeconfig_payload c organizationName cloudspaceName) |}.

Definition generateKubeconfig (organizationName cloudspaceName : JsValue)
  : M Json :=
  c <- this ;;
  response <- fetch customFetch
                (kubeconfig_request c organizationName cloudspaceName) ;;
  if negb (ok response) then
    throw (ErrorObj ("Failed to generate kubeconfig: "
                       +:+ pretty (status response) +:+ " - " +:+ text response))
  else lift (json response).

End WithLibrary.

End Api.

(** ** src/index.ts, with the client behind it

    The call handler once more, now with the methods of [SpotClient] it
    calls filled in: the state carries, next to the server's own, the
    requests sent so far and the clock readings taken. *)

Module Live.
Import Server.

Section WithLibrary.

Context {Json : Type}.
Variable as_TokenResponse : Json -> SpotClient.TokenResponse.
Variable customFetch
  : nat -> SpotClient.Request -> Res (SpotClient.Response (Json:=Json)).
Variable Date_now : nat -> Z.
Variable createRequest
  : string -> string -> string -> option Api.Options -> SpotClient.Request.
Variable parse : SpotClient.Response (Json:=Json) -> Res (Api.FetchResult (Json:=Json)).
Variable JSON_stringify : Json -> string.
Variable truthy_json : Json -> bool.
Variable JSON_body : Api.Payload -> SpotClient.Body.

(** [JSON.stringify(result, null, 2)] in the call handler; [result] may be
    [undefined]. *)
Variable JSON_pretty : option Json -> string.

Notation "x <- m ;; k" := (SpotClient.bind m (fun x => k))
  (at level 100, m at next level, right associativity).

Local Abbreviation via m := (m Json as_TokenResponse customFetch Date_now
                               createRequest parse JSON_stringify truthy_json).

Definition some (m : SpotClient.M Json) : SpotClient.M (option Json) :=
  data <- m ;; SpotClient.ret (Some data).

(** The method behind each call of the handler's [switch]. *)
Definition perform (call : ClientCall) : SpotClient.M (option Json) :=
  match call with
  | listRegions => via (@Api.listRegions)
  | getRegion name => via (@Api.getRegion) name
  | listServerClasses => via (@Api.listServerClasses)
  | getServerClass name => via (@Api.getServerClass) name
  | listOrganizations => via (@Api.listOrganizations)
  | listCloudspaces namespace => via (@Api.listCloudspaces) namespace
  | getCloudspace namespace name => via (@Api.getCloudspace) namespace name
  | createCloudspace namespace name region haControlPlane =>
      via (@Api.createCloudspace) namespace name region haControlPlane
  | deleteCloudspace namespace name => via (@Api.deleteCloudspace) namespace name
  | listSpotNodePools namespace cloudspaceName =>
      via (@Api.listSpotNodePools) namespace cloudspaceName
  | getSpotNodePool namespace name => via (@Api.getSpotNodePool) namespace name
  | createSpotNodePool namespace name cloudspaceName serverClassName bidPrice
      minNodes maxNodes desiredNodes =>
      via (@Api.createSpotNodePool) namespace name cloudspaceName serverClassName
        bidPrice minNodes maxNodes desiredNodes
  | deleteSpotNodePool namespace name =>
      via (@Api.deleteSpotNodePool) namespace name
  | listOnDemandNodePools namespace cloudspaceName =>
      via (@Api.listOnDemandNodePools) namespace cloudspaceName
  | getOnDemandNodePool namespace name =>
      via (@Api.getOnDemandNodePool) namespace name
  | createOnDemandNodePool namespace name cloudspaceName serverClassName
      minNodes maxNodes desiredNodes =>
      via (@Api.createOnDemandNodePool) namespace name cloudspaceName
        serverClassName minNodes maxNodes desiredNodes
  | deleteOnDemandNodePool namespace name =>
      via (@Api.deleteOnDemandNodePool) namespace name
  | generateKubeconfig organizationName cloudspaceName =>
      some (Api.generateKubeconfig customFetch JSON_body
              organizationName cloudspaceName)
  | getMarketPriceCapacity =>
      some (SpotClient.getMarketPriceCapacity as_TokenResponse customFetch Date_now)
  | getPriceHistory serverClass region =>
      some (SpotClient.getPriceHistory as_TokenResponse customFetch Date_now
              (Api.String_of serverClass) (Api.String_of region))
  | getPercentileInformation =>
      some (SpotClient.getPercentileInformation as_TokenResponse customFetch
              Date_now)
  end.

(** The server together with the network it has used. *)
Record State := {
  server : Server.State;
  net : list SpotClient.Request;
  ticks : nat;
}.

(** The world a method of client [c] runs in. *)
Definition world (c : SpotClient.t) (l : State) : SpotClient.World :=
  {| SpotClient.client := c;
     SpotClient.fetch_log := net l;
     SpotClient.clock_reads := ticks l |}.

Definition with_server (σ : Server.State) (l : State) : State :=
  {| server := σ; net := net l; ticks := ticks l |}.

(** The [CallToolRequestSchema] handler. *)
Definition callTool (name : string) (args : Args) (l : State)
  : CallToolResult * State :=
  if isReadOnly (env (server l)) && bool_decide (name ∈ WRITABLE_TOOLS) then
    (error_result (read_only_message name), l)
  else
    match getClient (server l) with
    | (Throw e, σ1) => (caught e, with_server σ1 l)
    | (Ok c, σ1) =>
        match switch name args with
        | None =>
            (caught (ErrorObj ("Unknown tool: " +:+ name)), with_server σ1 l)
        | Some call =>
            let '(result, w) := perform call (world c l) in
            let l' := {| server := {| env := env σ1; heap := heap σ1;
                                      client := Some (SpotClient.client w);
                                      calls := calls σ1 ++ [call] |};
                         net := SpotClient.fetch_log w;
                         ticks := SpotClient.clock_reads w |} in
            match result with
            | Ok data =>
                ({| content := [ text_item (JSON_pretty data) ];
                    isError := None |}, l')
            | Throw e => (caught e, l')
            end
        end
    end.

(** The client the abstract handler of [Server.callTool] stands for, when
    the network is as in [l]. *)
Definition client_of (l : State) (c : SpotClient.t) (call : ClientCall)
  : Res (option Json) * SpotClient.t :=
  let '(result, w) := perform call (world c l) in (result, SpotClient.client w).

(** The state [main] leaves: nothing sent, the clock not read. *)
Definition started (e : Env) : State :=
  {| server := Server.started e; net := []; ticks := 0 |}.

End WithLibrary.

End Live.

(** ** Vocabulary for the further statements *)

Module Catalog.
Import Server.

(** The catalog entry of a name, and the argument names its input schema
    declares. *)
Definition entry (name : string) : option Obj :=
  find (fun o => bool_decide (tool_name o = Some name)) allTools_literal.

Definition declared (name : string) : list string :=
  match entry name ≫= fun o => o !! "inputSchema" with
  | Some (FSchema s) => (properties s).*1
  | _ => []
  end.

(** The answer to a call that gets as far as a client method: what the
    [try] block returns, or the [catch] block. *)
Definition answer {Data : Type}
  (spotClient : SpotClient.t -> ClientCall -> Res Data * SpotClient.t)
  (JSON_stringify : Data -> string)
  (c : SpotClient.t) (call : ClientCall) : CallToolResult :=
  match fst (spotClient c call) with
  | Ok data => {| content := [ text_item (JSON_stringify data) ]; isError := None |}
  | Throw e => caught e
  end.

(** The library call behind a client method: verb, path template and
    options; none for the methods that call [customFetch] themselves. *)
Definition route (call : ClientCall) : option (string * string * option Api.Options) :=
  let in_path fields :=
    Some {| Api.path := fields; Api.query := None; Api.payload := None |} in
  let with_body namespace body :=
    Some {| Api.path := [ ("namespace", namespace) ];
            Api.query := None;
            Api.payload := Some body |} in
  let filtered namespace cloudspaceName :=
    Some {| Api.path := [ ("namespace", namespace) ];
            Api.query := Api.by_cloudspace cloudspaceName;
            Api.payload := None |} in
  match call with
  | listRegions => Some ("GET", "/apis/ngpc.rxt.io/v1/regions", None)
  | getRegion name =>
      Some ("GET", "/apis/ngpc.rxt.io/v1/regions/{name}", in_path [ ("name", name) ])
  | listServerClasses => Some ("GET", "/apis/ngpc.rxt.io/v1/serverclasses", None)
  | getServerClass name =>
      Some ("GET", "/apis/ngpc.rxt.io/v1/serverclasses/{name}",
            in_path [ ("name", name) ])
  | listOrganizations =>
      Some ("GET", "/apis/auth.ngpc.rxt.io/v1/organizations", None)
  | listCloudspaces namespace =>
      Some ("GET", "/apis/ngpc.rxt.io/v1/namespaces/{namespace}/cloudspaces",
            in_path [ ("namespace", namespace) ])
  | getCloudspace namespace name =>
      Some ("GET", "/apis/ngpc.rxt.io/v1/namespaces/{namespace}/cloudspaces/{name}",
            in_path [ ("namespace", namespace); ("name", name) ])
  | createCloudspace namespace name region haControlPlane =>
      Some ("POST", "/apis/ngpc.rxt.io/v1/namespaces/{namespace}/cloudspaces",
            with_body namespace
              (Api.cloudspace_body namespace name region haControlPlane))
  | deleteCloudspace namespace name =>
      Some ("DELETE",
            "/apis/ngpc.rxt.io/v1/namespaces/{namespace}/cloudspaces/{name}",
            in_path [ ("namespace", namespace); ("name", name) ])
  | listSpotNodePools namespace cloudspaceName =>
      Some ("GET", "/apis/ngpc.rxt.io/v1/namespaces/{namespace}/spotnodepools",
            filtered namespace cloudspaceName)
  | getSpotNodePool namespace name =>
      Some ("GET",
            "/apis/ngpc.rxt.io/v1/namespaces/{namespace}/spotnodepools/{name}",
            in_path [ ("namespace", namespace); ("name", name) ])
  | createSpotNodePool namespace name cloudspaceName serverClassName bidPrice
      minNodes maxNodes desiredNodes =>
      Some ("POST", "/apis/ngpc.rxt.io/v1/namespaces/{namespace}/spotnodepools",
            with_body namespace
              (Api.spot_pool_body namespace name cloudspaceName serverClassName
                 bidPrice minNodes maxNodes desiredNodes))
  | deleteSpotNodePool namespace name =>
      Some ("DELETE",
            "/apis/ngpc.rxt.io/v1/namespaces/{namespace}/spotnodepools/{name}",
            in_path [ ("namespace", namespace); ("name", name) ])
  | listOnDemandNodePools namespace cloudspaceName =>
      Some ("GET", "/apis/ngpc.rxt.io/v1/namespaces/{namespace}/ondemandnodepools",
            filtered namespace cloudspaceName)
  | getOnDemandNodePool namespace name =>
      Some ("GET",
            "/apis/ngpc.rxt.io/v1/namespaces/{namespace}/ondemandnodepools/{name}",
            in_path [ ("namespace", namespace); ("name", name) ])
  | createOnDemandNodePool namespace name cloudspaceName serverClassName
      minNodes maxNodes desiredNodes =>
      Some ("POST",
            "/apis/ngpc.rxt.io/v1/namespaces/{namespace}/ondemandnodepools",
            with_body namespace
              (Api.ondemand_pool_body namespace name cloudspaceName
                 serverClassName minNodes maxNodes desiredNodes))
  | deleteOnDemandNodePool namespace name =>
      Some ("DELETE",
            "/apis/ngpc.rxt.io/v1/namespaces/{namespace}/ondemandnodepools/{name}",
            in_path [ ("namespace", namespace); ("name", name) ])
  | generateKubeconfig _ _
  | getMarketPriceCapacity
  | getPriceHistory _ _
  | getPercentileInformation => None
  end.

(** The words of a method's error message. *)
Definition failed (call : ClientCall) : string :=
  match call with
  | listRegions => "Failed to list regions: "
  | getRegion _ => "Failed to get region: "
  | listServerClasses => "Failed to list server classes: "
  | getServerClass _ => "Failed to get server class: "
  | listOrganizations => "Failed to list organizations: "
  | listCloudspaces _ => "Failed to list cloudspaces: "
  | getCloudspace _ _ => "Failed to get cloudspace: "
  | createCloudspace _ _ _ _ => "Failed to create cloudspace: "
  | deleteCloudspace _ _ => "Failed to delete cloudspace: "
  | listSpotNodePools _ _ => "Failed to list spot node pools: "
  | getSpotNodePool _ _ => "Failed to get spot node pool: "
  | createSpotNodePool _ _ _ _ _ _ _ _ => "Failed to create spot node pool: "
  | deleteSpotNodePool _ _ => "Failed to delete spot node pool: "
  | listOnDemandNodePools _ _ => "Failed to list on-demand node pools: "
  | getOnDemandNodePool _ _ => "Failed to get on-demand node pool: "
  | createOnDemandNodePool _ _ _ _ _ _ _ => "Failed to create on-demand node pool: "
  | deleteOnDemandNodePool _ _ => "Failed to delete on-demand node pool: "
  | generateKubeconfig _ _ => "Failed to generate kubeconfig: "
  | getMarketPriceCapacity => "Failed to get market price capacity: "
  | getPriceHistory _ _ => "Failed to get price history: "
  | getPercentileInformation => "Failed to get percentile information: "
  end.

(** The pricing path of a call, for the three pricing methods. *)
Definition pricing_path (call : ClientCall) : option string :=
  match call with
  | getMarketPriceCapacity =>
      Some "/apis/pricing.ngpc.rxt.io/v1/market-price-capacity"
  | getPriceHistory serverClass region =>
      Some ("/apis/ngpc.rxt.io/v1/serverclasses/" +:+ Api.String_of serverClass
              +:+ "/regions/" +:+ Api.String_of region +:+ "/price-history")
  | getPercentileInformation => Some "/apis/pricing.ngpc.rxt.io/v1/percentile"
  | _ => None
  end.

End Catalog.

(** ** Vocabulary for the traffic of a call *)

Module Traffic.
Import SpotClient.

(** Two clients with the same credential and the same base URLs: they
    differ in the session at most. *)
Definition same_config (c' c : t) : Prop :=
  refreshToken c' = refreshToken c
  ∧ authBaseUrl c' = authBaseUrl c
  ∧ apiBaseUrl c' = apiBaseUrl c.

(** The request is [original] as the middleware may have left it: with
    or without an [Authorization] header set. *)
Definition passed (original r : Request) : Prop :=
  r = original ∨ ∃ v, r = set_header "Authorization" v original.

(** The method behind the call asks for a session before it sends its
    request: a library call whose URL the middleware does not exempt, or
    one of the pricing methods. *)
Definition guarded
  (createRequest : string -> string -> string -> option Api.Options -> Request)
  (c : t) (call : Server.ClientCall) : bool :=
  match Catalog.route call with
  | Some (m, p, o) => negb (auth_exempt (url (createRequest (apiBaseUrl c) m p o)))
  | None =>
      match Catalog.pricing_path call with
      | Some _ => true
      | None => false
      end
  end.

(** The success envelope of the call handler. *)
Definition success (text : string) : Server.CallToolResult :=
  {| Server.content := [ Server.text_item text ]; Server.isError := None |}.

End Traffic.

(** ** Stand-ins for the library, for the examples

    A library that appends the path template to the base URL as it is,
    reports the parsed body as [data] on success and as [error]
    otherwise, and prints fixed texts. *)

Module Stub.
Import SpotClient Mock.

Definition createRequest (base method path : string) (options : option Api.Options)
  : Request :=
  {| url := base +:+ path; method := method; headers := ∅; body := NoBody |}.

Definition parse (response : MockResponse) : Res (Api.FetchResult (Json:=MockJson)) :=
  match json response with
  | Ok parsed =>
      if ok response
      then Ok {| Api.data := Some parsed; Api.error := None |}
      else Ok {| Api.data := None; Api.error := Some parsed |}
  | Throw e => Throw e
  end.

Definition JSON_stringify (value : MockJson) : string :=
  match value with
  | TokenData _ => "{}"
  | ErrorData error => error
  end.

Definition truthy_json (value : MockJson) : bool := true.

Definition JSON_body (payload : Api.Payload) : Body := JsonBody [].

Definition JSON_pretty (value : option MockJson) : string :=
  match value with
  | Some parsed => JSON_stringify parsed
  | None => "undefined"
  end.

(** A server that has made its client and holds a session good for a
    day; one that has made its client and holds none. *)
Definition signed_in : SpotClient.t :=
  set_session (client fresh) "mock-id-token" (clock 0 + 86400 * 1000).

Definition serving (e : Server.Env) (c : SpotClient.t) : Live.State :=
  {| Live.server := {| Server.env := e; Server.heap := Server.allTools_literal;
                       Server.client := Some c; Server.calls := [] |};
     Live.net := [];
     Live.ticks := 0 |}.

End Stub.

(** * Properties *)

(** ** Lists and strings *)

Lemma omap_length_insert {A B} (f : A -> option B) (l : list A) (i : nat) (x y : A) :
  l !! i = Some x ->
  (length (omap f (<[ i := y ]> l)) + length (option_list (f x))
   = length (omap f l) + length (option_list (f y)))%nat.
Proof.
  intros H. pose proof (lookup_lt_Some _ _ _ H) as Hlt.
  rewrite insert_take_drop by done.
  rewrite <-(take_drop_middle l i x H) at 3.
  rewrite !omap_app, !length_app. simpl.
  destruct (f x), (f y); simpl; lia.
Qed.

Lemma prefix_app (p s : string) : String.prefix p (p +:+ s) = true.
Proof.
  induction p as [|c p IH]; [by destruct s|].
  change (String c p +:+ s) with (String c (p +:+ s)). simpl.
  destruct (Ascii.ascii_dec c c); [exact IH|done].
Qed.

Lemma includes_app_r (a s p : string) :
  includes s p = true -> includes (a +:+ s) p = true.
Proof.
  intros H. induction a as [|c a IH]; [done|].
  change (String c a +:+ s) with (String c (a +:+ s)).
  simpl. rewrite IH. apply orb_true_r.
Qed.

Lemma includes_prefix (p s : string) : includes (p +:+ s) p = true.
Proof.
  destruct p as [|c p]; [by destruct s|].
  change (String c p +:+ s) with (String c (p +:+ s)).
  unfold includes; fold includes.
  change (String c (p +:+ s)) with (String c p +:+ s).
  by rewrite prefix_app.
Qed.

(** ** The session manager and the bearer middleware *)

Section ClientFacts.
Import SpotClient.
Context {Json : Type}.
Variable as_TokenResponse : Json -> TokenResponse.
Variable customFetch : nat -> Request -> Res (Response (Json:=Json)).
Variable Date_now : nat -> Z.

Local Abbreviation authenticate := (authenticate as_TokenResponse customFetch Date_now).
Local Abbreviation authenticate_response :=
  (authenticate_response as_TokenResponse Date_now).
Local Abbreviation ensureAuthenticated :=
  (ensureAuthenticated as_TokenResponse customFetch Date_now).
Local Abbreviation token_still_valid := (token_still_valid Date_now).
Local Abbreviation fetch := (fetch customFetch).
Local Abbreviation onRequest := (onRequest as_TokenResponse customFetch Date_now).
Local Abbreviation client_send := (client_send as_TokenResponse customFetch Date_now).
Local Abbreviation generateKubeconfig := (generateKubeconfig customFetch).
Local Abbreviation pricing_call := (pricing_call as_TokenResponse customFetch Date_now).
Local Abbreviation resume := (resume as_TokenResponse customFetch Date_now).
Local Abbreviation run_caller := (run_caller as_TokenResponse customFetch Date_now).
Local Abbreviation run_schedule := (run_schedule as_TokenResponse customFetch Date_now).
Local Abbreviation caller_owns := (caller_owns customFetch).
Local Abbreviation pool_ok := (pool_ok customFetch).

Lemma exchanges_snoc (w : World) (req : Request) :
  exchanges (snd (fetch req w))
  = (exchanges w + (if is_exchange req then 1 else 0))%nat.
Proof.
  unfold exchanges. simpl. rewrite filter_app. rewrite length_app. f_equal.
  rewrite filter_cons, filter_nil.
  case_decide as H; destruct (is_exchange req); simpl; congruence.
Qed.

Lemma authenticate_response_frame (response : Response) (w : World) :
  fetch_log (snd (authenticate_response response w)) = fetch_log w.
Proof.
  unfold SpotClient.authenticate_response, bind, lift, throw, this, now, set_this.
  destruct (ok response); simpl; [|done].
  destruct (json response); done.
Qed.

Lemma authenticate_response_outcome (response : Response) (w : World) :
  fst (authenticate_response response w) = auth_outcome (Ok response).
Proof.
  unfold SpotClient.authenticate_response, auth_outcome, bind, lift, throw.
  destruct (ok response); simpl; [|done].
  by destruct (json response).
Qed.

Lemma authenticate_eq (w : World) :
  authenticate w
  = match customFetch (length (fetch_log w)) (token_request (client w)) with
    | Ok response =>
        authenticate_response response (snd (fetch (token_request (client w)) w))
    | Throw e => (Throw e, snd (fetch (token_request (client w)) w))
    end.
Proof.
  unfold SpotClient.authenticate, bind, this. simpl.
  by destruct (customFetch _ _).
Qed.

Lemma authenticate_one_exchange (w : World) :
  exchanges (snd (authenticate w)) = S (exchanges w).
Proof.
  unfold SpotClient.authenticate, bind, this.
  pose proof (exchanges_snoc w (token_request (client w))) as Hx.
  destruct (fetch (token_request (client w)) w) as [[response|e] w1] eqn:Hf;
    simpl in *.
  - unfold exchanges in *. rewrite authenticate_response_frame, Hx. lia.
  - rewrite Hx. lia.
Qed.

Lemma token_still_valid_eq (w : World) :
  token_still_valid w =
    if truthy (accessToken (client w)) then
      (Ok (Date_now (clock_reads w) <? tokenExpiry (client w) - 60000),
       {| client := client w; fetch_log := fetch_log w;
          clock_reads := S (clock_reads w) |})
    else (Ok false, w).
Proof.
  unfold SpotClient.token_still_valid, bind, this, now, ret.
  by destruct (truthy _).
Qed.

Lemma ensureAuthenticated_valid (w : World) :
  session_valid_at (client w) (Date_now (clock_reads w)) ->
  ensureAuthenticated w
  = (Ok tt, {| client := client w; fetch_log := fetch_log w;
               clock_reads := S (clock_reads w) |}).
Proof.
  intros [Ht Hn]. unfold SpotClient.ensureAuthenticated, bind.
  rewrite token_still_valid_eq, Ht.
  apply Z.ltb_lt in Hn. by rewrite Hn.
Qed.

Lemma ensureAuthenticated_stale (w : World) :
  ¬ session_valid_at (client w) (Date_now (clock_reads w)) ->
  exchanges (snd (ensureAuthenticated w)) = S (exchanges w).
Proof.
  intros Hn. unfold SpotClient.ensureAuthenticated, bind.
  rewrite token_still_valid_eq.
  destruct (truthy _) eqn:Ht.
  - destruct (Z.ltb_spec (Date_now (clock_reads w)) (tokenExpiry (client w) - 60000)).
    + exfalso. apply Hn. by split.
    + by rewrite authenticate_one_exchange.
  - apply authenticate_one_exchange.
Qed.

Lemma session_valid_dec (c : t) (n : Z) :
  session_valid_at c n
  ∨ (truthy (accessToken c) = false ∨ tokenExpiry c - 60000 ≤ n).
Proof.
  unfold session_valid_at. destruct (truthy _); [|by right; left].
  destruct (Z.lt_ge_cases n (tokenExpiry c - 60000)); [by left|by right; right].
Qed.

Lemma session_invalid_iff (c : t) (n : Z) :
  ¬ session_valid_at c n
  ↔ (truthy (accessToken c) = false ∨ tokenExpiry c - 60000 ≤ n).
Proof.
  unfold session_valid_at. split.
  - intros Hn. destruct (session_valid_dec c n) as [?|?]; [by destruct Hn|done].
  - intros [Hf|Hle] [Ht Hlt]; [congruence|lia].
Qed.

(** C3. [ensureAuthenticated] performs an authentication exchange exactly
    when there is no cached token (the [accessToken] slot is falsy) or the
    time is at or past [tokenExpiry - 60000]; it never performs more than
    one. Inside the validity window it resolves, leaves the cached token
    and expiry as they are and sends nothing. Hence a call that found no
    valid session, followed by a call inside the window of the session it
    cached, makes exactly one exchange in total. [w1] and [w2] are the
    worlds after the first and the second call. *)
Theorem ensureAuthenticated_exchange_iff (w : World) :
  let current := Date_now (clock_reads w) in
  let w1 := snd (ensureAuthenticated w) in
  let w2 := snd (ensureAuthenticated w1) in
  (exchanges w1 = S (exchanges w)
     ↔ truthy (accessToken (client w)) = false
       ∨ tokenExpiry (client w) - 60000 ≤ current)
  ∧ (exchanges w1 = exchanges w ↔ session_valid_at (client w) current)
  ∧ (session_valid_at (client w) current ->
       fst (ensureAuthenticated w) = Ok tt
       ∧ client w1 = client w ∧ fetch_log w1 = fetch_log w)
  ∧ (¬ session_valid_at (client w) current ->
       session_valid_at (client w1) (Date_now (clock_reads w1)) ->
       exchanges w2 = S (exchanges w)).
Proof.
  intros current w1 w2.
  assert (Hv : session_valid_at (client w) current -> exchanges w1 = exchanges w).
  { intros H. unfold w1. by rewrite (ensureAuthenticated_valid w H). }
  assert (Hs : ¬ session_valid_at (client w) current ->
               exchanges w1 = S (exchanges w)).
  { apply ensureAuthenticated_stale. }
  split; [|split; [|split]].
  - split.
    + intros Hx. apply session_invalid_iff. intros H. apply Hv in H. lia.
    + intros H. apply Hs. by apply session_invalid_iff.
  - split; [|done].
    intros Hx. destruct (session_valid_dec (client w) current) as [?|H]; [done|].
    apply session_invalid_iff in H. apply Hs in H. lia.
  - intros H. unfold w1. by rewrite (ensureAuthenticated_valid w H).
  - intros Hstale Hvalid. unfold w2.
    rewrite (ensureAuthenticated_valid w1 Hvalid). simpl.
    change (exchanges w1 = S (exchanges w)). by apply Hs.
Qed.

(** C5. When the token endpoint answers with a response that is not [ok],
    [authenticate] rejects with an [Error] whose message carries the status
    and the body text, and every field of the client, [accessToken] and
    [tokenExpiry] included, is as before; if [authenticate] changes the
    client at all, the answer was an [ok] response. *)
Theorem authenticate_failure_keeps_session (w : World) :
  (∀ response : Response,
      customFetch (length (fetch_log w)) (token_request (client w)) = Ok response ->
      ok response = false ->
      fst (authenticate w)
      = Throw (ErrorObj ("Authentication failed: " +:+ pretty (status response)
                           +:+ " - " +:+ text response))
      ∧ client (snd (authenticate w)) = client w)
  ∧ (client (snd (authenticate w)) ≠ client w ->
     ∃ response : Response,
       customFetch (length (fetch_log w)) (token_request (client w)) = Ok response
       ∧ ok response = true).
Proof.
  rewrite authenticate_eq. split.
  - intros response -> Hok.
    unfold SpotClient.authenticate_response. by rewrite Hok.
  - destruct (customFetch _ _) as [response|e]; [|done].
    intros Hne. exists response. split; [done|].
    destruct (ok response) eqn:Hok; [done|].
    exfalso. apply Hne.
    unfold SpotClient.authenticate_response. by rewrite Hok.
Qed.



Lemma onRequest_exempt (request : Request) (w : World) :
  auth_exempt (url request) = true -> onRequest request w = (Ok request, w).
Proof. intros H. unfold SpotClient.onRequest. by rewrite H. Qed.

Lemma onRequest_guarded (request : Request) (w : World) :
  auth_exempt (url request) = false ->
  onRequest request w
  = match ensureAuthenticated w with
    | (Ok _, w1) =>
        (Ok (if truthy (accessToken (client w1))
             then set_header "Authorization"
                    (bearer_of (accessToken (client w1))) request
             else request), w1)
    | (Throw e, w1) => (Throw e, w1)
    end.
Proof.
  intros H. unfold SpotClient.onRequest. rewrite H. unfold bind at 1.
  destruct (ensureAuthenticated w) as [[[]|e] w1]; [|done].
  unfold bind, this, ret. by destruct (truthy _).
Qed.


Lemma pricing_call_sends (path what : string) (w w1 : World) :
  ensureAuthenticated w = (Ok tt, w1) ->
  snd (pricing_call path what w)
  = {| client := client w1;
       fetch_log := fetch_log w1 ++ [pricing_request (client w1) path];
       clock_reads := clock_reads w1 |}.
Proof.
  intros He.
  unfold SpotClient.pricing_call, bind at 1. rewrite He.
  unfold bind, this. simpl.
  destruct (customFetch _ _) as [response|e]; [|done].
  unfold throw, lift. by destruct (ok response).
Qed.


(** *** Callers in flight together *)

(** One caller run alone, from its start to its return, is
    [ensureAuthenticated]. *)
Lemma resume_alone (w : World) :
  let step1 := resume Ready w in
  let step2 := resume (fst step1) (snd step1) in
  snd step2 = snd (ensureAuthenticated w)
  ∧ ∃ n, fst step2 = Returned n (fst (ensureAuthenticated w)).
Proof.
  unfold SpotClient.resume, SpotClient.ensureAuthenticated, bind.
  rewrite token_still_valid_eq.
  destruct (truthy (accessToken (client w)));
    [destruct (Date_now (clock_reads w) <? tokenExpiry (client w) - 60000)|];
    simpl; try (split; [done|by eexists]).
  all: rewrite authenticate_eq; simpl.
  all: destruct (customFetch _ _) as [response|e]; simpl;
    [destruct (authenticate_response response _)|]; simpl.
  all: split; [done|by eexists].
Qed.

Lemma caller_owns_mono (w w' : World) (k : Caller) (extra : list Request) :
  fetch_log w' = fetch_log w ++ extra -> caller_owns w k -> caller_owns w' k.
Proof.
  intros Hlog. destruct k as [|n request|[n|] result]; simpl; try done.
  - intros [Hl Hx]. split; [|done]. rewrite Hlog. by apply lookup_app_l_Some.
  - intros (request & Hl & Hx & Hr). exists request.
    split; [|done]. rewrite Hlog. by apply lookup_app_l_Some.
Qed.

Lemma caller_owns_ticket (w : World) (k : Caller) (n : nat) :
  caller_owns w k -> ticket_of k = Some n -> (n < length (fetch_log w))%nat.
Proof.
  destruct k as [|m request|[m|] result]; simpl; try done.
  - intros [Hl _] [= <-]. by eapply lookup_lt_Some.
  - intros (request & Hl & _) [= <-]. by eapply lookup_lt_Some.
Qed.

(** One turn of one caller: the log only grows, the caller owns what it
    holds afterwards, an exchange is counted exactly when a ticket is
    drawn, and a ticket once drawn is kept. *)
Lemma resume_turn (k : Caller) (w : World) :
  caller_owns w k ->
  ∃ extra,
    fetch_log (snd (resume k w)) = fetch_log w ++ extra
    ∧ caller_owns (snd (resume k w)) (fst (resume k w))
    ∧ (exchanges (snd (resume k w)) + length (option_list (ticket_of k))
       = exchanges w + length (option_list (ticket_of (fst (resume k w)))))%nat
    ∧ (∀ n, ticket_of k = Some n -> ticket_of (fst (resume k w)) = Some n)
    ∧ (∀ n, ticket_of k = None -> ticket_of (fst (resume k w)) = Some n ->
            n = length (fetch_log w)).
Proof.
  intros Hk. destruct k as [|n request|tk result].
  - unfold SpotClient.resume. rewrite token_still_valid_eq.
    destruct (truthy (accessToken (client w))); simpl;
      [destruct (Date_now (clock_reads w) <? tokenExpiry (client w) - 60000);
       simpl|].
    + exists []. rewrite app_nil_r. repeat split; try done; lia.
    + exists [token_request (client w)]. repeat split; try done.
      * by rewrite lookup_app_r, Nat.sub_diag.
      * unfold exchanges. simpl. rewrite filter_app, length_app.
        rewrite filter_cons, filter_nil. simpl. lia.
      * by intros n _ [= <-].
    + exists [token_request (client w)]. repeat split; try done.
      * by rewrite lookup_app_r, Nat.sub_diag.
      * unfold exchanges. simpl. rewrite filter_app, length_app.
        rewrite filter_cons, filter_nil. simpl. lia.
      * by intros n _ [= <-].
  - destruct Hk as [Hl Hx]. unfold SpotClient.resume.
    destruct (customFetch n request) as [response|e] eqn:Hf.
    + pose proof (authenticate_response_outcome response w) as Ho.
      pose proof (authenticate_response_frame response w) as Hg.
      destruct (authenticate_response response w) as [r w'] eqn:Ha. simpl in *.
      exists []. rewrite app_nil_r. repeat split; try done.
      * exists request. by rewrite Hg, Hf.
      * unfold exchanges. rewrite Hg. lia.
    + exists []. rewrite app_nil_r. simpl. repeat split; try done; try lia.
      exists request. by rewrite Hf.
  - exists []. rewrite app_nil_r.
    split; [done|]. split; [exact Hk|]. split; [simpl; lia|].
    split; [done|]. simpl. congruence.
Qed.

Lemma run_caller_ok (e0 : nat) (p : Pool) (i : nat) :
  pool_ok e0 p -> pool_ok e0 (run_caller p i).
Proof.
  intros (Hx & Hall & Hdis). unfold SpotClient.run_caller.
  destruct (callers p !! i) as [k|] eqn:Hi; [|done].
  assert (Hk : caller_owns (world p) k).
  { by eapply (proj1 (Forall_lookup _ _)) in Hall. }
  destruct (resume_turn k (world p) Hk)
    as (extra & Hlog & Hown & Hcount & Hkeep & Hnew).
  destruct (resume k (world p)) as [k' w'] eqn:Hr. simpl in *.
  split; [|split]; simpl.
  - pose proof (omap_length_insert ticket_of (callers p) i k k' Hi). lia.
  - apply Forall_insert; [|done].
    eapply Forall_impl; [exact Hall|]. intros k0. by apply caller_owns_mono with extra.
  - intros a b ka kb n Hab Ha Hb Hta.
    destruct (decide (a = i)) as [->|Hai].
    + rewrite list_lookup_insert_eq in Ha by (by eapply lookup_lt_Some).
      injection Ha as <-.
      rewrite list_lookup_insert_ne in Hb by done.
      destruct (ticket_of k) as [m|] eqn:Htk.
      * rewrite (Hkeep m eq_refl) in Hta. injection Hta as <-.
        by eapply (Hdis i b k kb).
      * apply Hnew in Hta; [|done]. subst n. intros Htb.
        assert (caller_owns (world p) kb) as Hkb.
        { by eapply (proj1 (Forall_lookup _ _)) in Hall. }
        pose proof (caller_owns_ticket _ _ _ Hkb Htb). lia.
    + rewrite list_lookup_insert_ne in Ha by done.
      destruct (decide (b = i)) as [->|Hbi].
      * rewrite list_lookup_insert_eq in Hb by (by eapply lookup_lt_Some).
        injection Hb as <-.
        destruct (ticket_of k) as [m|] eqn:Htk.
        -- rewrite (Hkeep m eq_refl). intros [= ->].
           by eapply (Hdis a i ka k).
        -- intros Htb. apply Hnew in Htb; [|done]. subst n.
           assert (caller_owns (world p) ka) as Hka.
           { by eapply (proj1 (Forall_lookup _ _)) in Hall. }
           pose proof (caller_owns_ticket _ _ _ Hka Hta). lia.
      * rewrite list_lookup_insert_ne in Hb by done.
        by eapply (Hdis a b ka kb).
Qed.

Lemma run_caller_length (p : Pool) (i : nat) :
  length (callers (run_caller p i)) = length (callers p).
Proof.
  unfold SpotClient.run_caller. destruct (callers p !! i); [|done].
  destruct (resume _ _). simpl. apply length_insert.
Qed.

Lemma run_schedule_ok (e0 : nat) (schedule : list nat) (p : Pool) :
  pool_ok e0 p ->
  pool_ok e0 (run_schedule schedule p)
  ∧ length (callers (run_schedule schedule p)) = length (callers p).
Proof.
  revert p. induction schedule as [|i schedule IH]; intros p Hp; [done|].
  simpl. destruct (IH (run_caller p i)) as [H1 H2]; [by apply run_caller_ok|].
  split; [done|]. by rewrite H2, run_caller_length.
Qed.

Lemma start_ok (w : World) (n : nat) : pool_ok (exchanges w) (start w n).
Proof.
  unfold start. split; [|split]; simpl.
  - induction n; simpl; [lia|done].
  - by apply Forall_replicate.
  - intros i j ki kj m _ Hi _ Ht.
    by apply lookup_replicate in Hi as [-> _].
Qed.

Lemma observed_tickets (ks : list Caller) :
  Forall (fun k => observed_no_session k = true) ks ->
  length (omap ticket_of ks) = length ks.
Proof.
  induction 1 as [|k ks Hk _ IH]; [done|].
  destruct k as [| |[|]]; simpl in Hk; try done; exact (f_equal S IH).
Qed.

(** C4, as the code has it. [n] callers enter [ensureAuthenticated]
    together and are run in any order [schedule]. If every one of them
    found no valid session, then [n] authentication exchanges have been
    made, one per caller: no two callers hold the same request, and a
    caller that has returned got the outcome of its own request (resolved
    when that response was [ok] and parsed, rejected with that response's
    error otherwise). *)
Theorem each_caller_runs_its_own_exchange
  (schedule : list nat) (w : World) (n : nat) :
  let p := run_schedule schedule (start w n) in
  Forall (fun k => observed_no_session k = true) (callers p) ->
  exchanges (world p) = (exchanges w + n)%nat
  ∧ (∀ i j ki kj m,
       i ≠ j -> callers p !! i = Some ki -> callers p !! j = Some kj ->
       ticket_of ki = Some m -> ticket_of kj ≠ Some m)
  ∧ (∀ i m result,
       callers p !! i = Some (Returned (Some m) result) ->
       ∃ request, fetch_log (world p) !! m = Some request
                  ∧ is_exchange request = true
                  ∧ result = auth_outcome (customFetch m request)).
Proof.
  intros p Hall.
  destruct (run_schedule_ok (exchanges w) schedule (start w n) (start_ok w n))
    as [(Hx & Hown & Hdis) Hlen].
  fold p in Hx, Hown, Hdis, Hlen.
  split; [|split].
  - rewrite Hx, observed_tickets, Hlen by done. simpl. by rewrite length_replicate.
  - exact Hdis.
  - intros i m result Hi.
    by eapply (proj1 (Forall_lookup _ _)) in Hown; [|exact Hi].
Qed.

End ClientFacts.

(** *** The mock environment run through the statements above *)

Section ClientExamples.
Import SpotClient Mock.

Local Abbreviation ensure := (ensureAuthenticated mock_cast mockFetch clock).
Local Abbreviation once := (snd (ensure fresh)).
Local Abbreviation twice := (snd (ensure once)).

(** A fresh client has no session; its first call caches one, the second
    call falls inside that session's window, and the two together have made
    one exchange. *)
Lemma ensureAuthenticated_exchange_iff_witness :
  ¬ session_valid_at (client fresh) (clock (clock_reads fresh))
  ∧ session_valid_at (client once) (clock (clock_reads once))
  ∧ exchanges twice = 1%nat.
Proof.
  assert (H1 : ¬ session_valid_at (client fresh) (clock (clock_reads fresh))).
  { intros [H _]. vm_compute in H. discriminate H. }
  assert (H2 : session_valid_at (client once) (clock (clock_reads once))).
  { split; vm_compute; reflexivity. }
  split; [exact H1|]. split; [exact H2|].
  exact (proj2 (proj2 (proj2
           (ensureAuthenticated_exchange_iff mock_cast mockFetch clock fresh)))
           H1 H2).
Defined.

(** The 401 of the unit test: the error names status and body, the client
    is untouched. *)
Lemma authenticate_failure_keeps_session_witness :
  denyingFetch (length (fetch_log fresh)) (token_request (client fresh)) = Ok denied
  ∧ ok denied = false
  ∧ fst (authenticate mock_cast denyingFetch clock fresh)
    = Throw (ErrorObj ("Authentication failed: " +:+ pretty (status denied)
                         +:+ " - " +:+ text denied))
  ∧ client (snd (authenticate mock_cast denyingFetch clock fresh))
    = client fresh.
Proof.
  split; [reflexivity|]. split; [reflexivity|].
  exact (proj1 (authenticate_failure_keeps_session
                  mock_cast denyingFetch clock fresh)
           denied eq_refl eq_refl).
Defined.



(** The unit tests, replayed on the model. *)

Example test_authenticate_parameters :
  fetch_log (snd (authenticate mock_cast mockFetch clock fresh))
  = [ {| url := "https://login.spot.rackspace.com/oauth/token";
         method := "POST";
         headers := {[ "Content-Type" := "application/x-www-form-urlencoded" ]};
         body := FormBody [ ("grant_type", "refresh_token");
                            ("client_id", "mwG3lUMV8KyeMqHe4fJ5Bb3nM1vBvRNa");
                            ("refresh_token", "test-refresh-token") ] |} ].
Proof. reflexivity. Qed.

Example test_authenticate_failure :
  ∃ message,
    fst (authenticate mock_cast denyingFetch clock fresh) = Throw (ErrorObj message)
    ∧ includes message "Authentication failed: 401" = true.
Proof. eexists. split; [reflexivity|by vm_compute]. Qed.

Example test_generateKubeconfig :
  fetch_log (snd (generateKubeconfig mockFetch "my-org" "my-cloudspace" fresh))
  = [ {| url := "https://spot.rackspace.com/apis/auth.ngpc.rxt.io/v1/generate-kubeconfig";
         method := "POST";
         headers := {[ "Content-Type" := "application/json" ]};
         body := JsonBody [ ("organization_name", "my-org");
                            ("cloudspace_name", "my-cloudspace");
                            ("refresh_token", "test-refresh-token") ] |} ].
Proof. reflexivity. Qed.

Example test_market_price_capacity :
  let log := fetch_log (snd (getMarketPriceCapacity mock_cast mockFetch clock fresh)) in
  length log = 2%nat
  ∧ url <$> log
    = [ "https://login.spot.rackspace.com/oauth/token";
        "https://spot.rackspace.com/apis/pricing.ngpc.rxt.io/v1/market-price-capacity" ]
  ∧ (last log ≫= fun request => headers request !! "Authorization")
    = Some "Bearer mock-id-token".
Proof. by vm_compute. Qed.

Local Abbreviation raced :=
  (run_schedule mock_cast grantOnceFetch clock [0; 1; 0; 1]%nat
     (start fresh 2)).

(** C4 fails on the code. Two callers start on a fresh client before
    either response is back: both find no session, so two exchanges are
    made, not one; the first is granted and the second denied, so the two
    callers do not see the same outcome either. *)
Lemma coalescing_counterexample :
  Forall (fun k => observed_no_session k = true) (callers raced)
  ∧ exchanges (world raced) = 2%nat
  ∧ exchanges (world raced) ≠ 1%nat
  ∧ callers raced
    = [ Returned (Some 0%nat) (Ok tt);
        Returned (Some 1%nat)
          (Throw (ErrorObj ("Authentication failed: 401 - " +:+ denied_text))) ].
Proof.
  assert (Hc : callers raced
               = [ Returned (Some 0%nat) (Ok tt);
                   Returned (Some 1%nat)
                     (Throw (ErrorObj ("Authentication failed: 401 - "
                                         +:+ denied_text))) ])
    by (vm_compute; reflexivity).
  assert (Hx : exchanges (world raced) = 2%nat) by (vm_compute; reflexivity).
  split; [|split; [exact Hx|split; [|exact Hc]]].
  - rewrite Hc. by repeat constructor.
  - rewrite Hx. discriminate.
Qed.

Local Abbreviation both_granted :=
  (run_schedule mock_cast mockFetch clock [0; 1; 0; 1]%nat (start fresh 2)).

(** The same race with both requests granted: two exchanges all the same. *)
Lemma each_caller_runs_its_own_exchange_witness :
  Forall (fun k => observed_no_session k = true) (callers both_granted)
  ∧ exchanges (world both_granted) = 2%nat.
Proof.
  assert (H : Forall (fun k => observed_no_session k = true) (callers both_granted)).
  { vm_compute. repeat constructor. }
  split; [exact H|].
  exact (proj1 (each_caller_runs_its_own_exchange
                  mock_cast mockFetch clock [0; 1; 0; 1]%nat fresh 2 H)).
Defined.

End ClientExamples.

(** ** The catalog, the listing and the call handler *)

Section ServerFacts.
Import Server.

Lemma catalog_in_split (h : Heap) :
  catalog_in h -> ∃ rest, h = allTools_literal ++ rest.
Proof.
  unfold catalog_in. intros H. exists (drop (length allTools_literal) h).
  rewrite <-(take_drop (length allTools_literal) h) at 1. by rewrite H.
Qed.

Lemma catalog_in_app (rest : list Obj) : catalog_in (allTools_literal ++ rest).
Proof. unfold catalog_in. by rewrite take_app_length. Qed.

Lemma map_rest_spec (tools : list Ref) (h : Heap) :
  Forall (fun r => (r < length h)%nat) tools ->
  map_rest tools h
  = (seq (length h) (length tools),
     h ++ ((fun r => delete "writable" (default ∅ (h !! r))) <$> tools)).
Proof.
  revert h. induction tools as [|r tools IH]; intros h Hv.
  { simpl. by rewrite app_nil_r. }
  apply Forall_cons in Hv as [Hr Hv]. simpl. unfold alloc.
  rewrite IH.
  2:{ eapply Forall_impl; [exact Hv|].
      intros x Hx. simpl in *. rewrite length_app. simpl. lia. }
  rewrite length_app. simpl. rewrite Nat.add_1_r. f_equal.
  rewrite <-app_assoc. simpl. do 2 f_equal.
  apply Forall_fmap_ext. eapply Forall_impl; [exact Hv|].
  intros x Hx. simpl. by rewrite lookup_app_l.
Qed.

Lemma deref_fresh (h new : list Obj) :
  deref (h ++ new) (seq (length h) (length new)) = new.
Proof.
  revert h. induction new as [|o new IH]; intros h; [done|].
  simpl. unfold deref in *. simpl.
  rewrite list_lookup_middle by done. simpl. f_equal.
  specialize (IH (h ++ [o])). rewrite length_app in IH. simpl in IH.
  rewrite Nat.add_1_r, <-app_assoc in IH. exact IH.
Qed.

Lemma refs_filter (pre lit rest : list Obj) :
  (fun r => default ∅ ((pre ++ lit ++ rest) !! r))
    <$> filter (fun r => truthy_field (get (pre ++ lit ++ rest) r "writable") = false)
          (seq (length pre) (length lit))
  = filter (fun o => is_writable o = false) lit.
Proof.
  revert pre. induction lit as [|o lit IH]; intros pre; [done|].
  simpl. rewrite !filter_cons.
  assert (Hl : (pre ++ o :: lit ++ rest) !! length pre = Some o).
  { by apply list_lookup_middle. }
  assert (Hg : truthy_field (get (pre ++ o :: lit ++ rest) (length pre) "writable")
               = is_writable o).
  { unfold get. by rewrite Hl. }
  specialize (IH (pre ++ [o])).
  rewrite length_app in IH. simpl in IH.
  rewrite Nat.add_1_r, <-app_assoc in IH. simpl in IH.
  repeat case_decide; try congruence.
  rewrite fmap_cons, Hl. simpl. f_equal. exact IH.
Qed.

Lemma refs_all (pre lit rest : list Obj) :
  (fun r => default ∅ ((pre ++ lit ++ rest) !! r)) <$> seq (length pre) (length lit)
  = lit.
Proof.
  revert pre. induction lit as [|o lit IH]; intros pre; [done|].
  simpl. rewrite list_lookup_middle by done. simpl. f_equal.
  specialize (IH (pre ++ [o])).
  rewrite length_app in IH. simpl in IH.
  rewrite Nat.add_1_r, <-app_assoc in IH. exact IH.
Qed.

Lemma shown_valid (σ : State) :
  catalog_in (heap σ) -> Forall (fun r => (r < length (heap σ))%nat) (shown σ).
Proof.
  intros Hc. destruct (catalog_in_split _ Hc) as [rest Hh].
  apply Forall_forall. intros r Hr.
  assert (r ∈ allTools) as Hin.
  { unfold shown in Hr. destruct (isReadOnly _); [|done].
    by apply list_elem_of_filter in Hr as [_ ?]. }
  unfold allTools in Hin. apply elem_of_seq in Hin.
  rewrite Hh, length_app. lia.
Qed.

Lemma shown_objects (σ : State) :
  catalog_in (heap σ) ->
  (fun r => default ∅ (heap σ !! r)) <$> shown σ = visible (env σ).
Proof.
  intros Hc. destruct (catalog_in_split _ Hc) as [rest Hh].
  unfold shown, visible, allTools. rewrite Hh.
  destruct (isReadOnly _).
  - exact (refs_filter [] allTools_literal rest).
  - exact (refs_all [] allTools_literal rest).
Qed.

(** What [listTools] returns and leaves behind: fresh references, and the
    store grown by the projected copies of the visible entries. *)
Lemma listTools_eq (σ : State) :
  catalog_in (heap σ) ->
  listTools σ
  = (seq (length (heap σ)) (length (shown σ)),
     {| env := env σ;
        heap := heap σ ++ (delete "writable" <$> visible (env σ));
        client := client σ;
        calls := calls σ |}).
Proof.
  intros Hc. unfold listTools. fold (shown σ).
  rewrite (map_rest_spec (shown σ) (heap σ) (shown_valid σ Hc)).
  by rewrite <-(shown_objects σ Hc), <-list_fmap_compose.
Qed.

Lemma listed_eq (σ : State) :
  catalog_in (heap σ) -> listed σ = delete "writable" <$> visible (env σ).
Proof.
  intros Hc. unfold listed. rewrite (listTools_eq σ Hc). cbn [heap].
  assert (length (shown σ) = length (delete "writable" <$> visible (env σ))) as ->.
  { by rewrite length_fmap, <-(shown_objects σ Hc), length_fmap. }
  apply deref_fresh.
Qed.

Lemma visible_in_catalog (e : Env) (o : Obj) :
  o ∈ visible e -> o ∈ allTools_literal.
Proof.
  unfold visible. destruct (isReadOnly e); [|done].
  intros H. by apply list_elem_of_filter in H as [_ ?].
Qed.

Lemma read_only_message_text (name : string) :
  includes (read_only_message name) "not available in read-only mode" = true
  ∧ includes (read_only_message name) name = true.
Proof.
  unfold read_only_message. split.
  - by do 4 apply includes_app_r.
  - do 2 apply includes_app_r. apply includes_prefix.
Qed.

(** *** The catalog, computed *)

Lemma writable_names :
  names (filter (fun o => is_writable o = true) allTools_literal)
  = [ "create_cloudspace"; "delete_cloudspace"; "create_spot_node_pool";
      "delete_spot_node_pool"; "create_ondemand_node_pool";
      "delete_ondemand_node_pool" ].
Proof. by vm_compute. Qed.

Lemma restricted_names :
  names (delete "writable" <$> filter (fun o => is_writable o = false) allTools_literal)
  = [ "list_regions"; "get_region"; "list_server_classes"; "get_server_class";
      "list_organizations"; "list_cloudspaces"; "get_cloudspace";
      "list_spot_node_pools"; "get_spot_node_pool";
      "list_ondemand_node_pools"; "get_ondemand_node_pool"; "get_kubeconfig";
      "get_market_pricing"; "get_price_history"; "get_percentile_pricing" ].
Proof. by vm_compute. Qed.

Lemma catalog_names :
  names allTools_literal
  = [ "list_regions"; "get_region"; "list_server_classes"; "get_server_class";
      "list_organizations"; "list_cloudspaces"; "get_cloudspace";
      "create_cloudspace"; "delete_cloudspace";
      "list_spot_node_pools"; "get_spot_node_pool";
      "create_spot_node_pool"; "delete_spot_node_pool";
      "list_ondemand_node_pools"; "get_ondemand_node_pool";
      "create_ondemand_node_pool"; "delete_ondemand_node_pool";
      "get_kubeconfig";
      "get_market_pricing"; "get_price_history"; "get_percentile_pricing" ].
Proof. by vm_compute. Qed.

Lemma catalog_names_unique : NoDup (names allTools_literal).
Proof. rewrite catalog_names. by (apply (bool_decide_unpack _); vm_compute). Qed.

Lemma switch_labels (args : Args) : (cases args).*1 = names allTools_literal.
Proof. by rewrite catalog_names. Qed.

Lemma listed_names_restricted (σ : State) :
  isReadOnly (env σ) = true -> catalog_in (heap σ) ->
  names (listed σ)
  = [ "list_regions"; "get_region"; "list_server_classes"; "get_server_class";
      "list_organizations"; "list_cloudspaces"; "get_cloudspace";
      "list_spot_node_pools"; "get_spot_node_pool";
      "list_ondemand_node_pools"; "get_ondemand_node_pool"; "get_kubeconfig";
      "get_market_pricing"; "get_price_history"; "get_percentile_pricing" ].
Proof.
  intros Hro Hc. rewrite (listed_eq σ Hc). unfold visible. rewrite Hro.
  exact restricted_names.
Qed.

(** A writable catalog entry carries one of the six gated names. *)
Lemma writable_entry_gated (o : Obj) (name : string) :
  o ∈ allTools_literal -> is_writable o = true -> tool_name o = Some name ->
  name ∈ WRITABLE_TOOLS.
Proof.
  intros Hin Hw Hn.
  assert (name ∈ names (filter (fun o => is_writable o = true) allTools_literal)) as H.
  { unfold names. apply list_elem_of_omap. exists o. split; [|done].
    by apply list_elem_of_filter. }
  rewrite writable_names in H. unfold WRITABLE_TOOLS.
  by apply elem_of_list_to_set.
Qed.

Lemma writable_flag (o : Obj) :
  o ∈ allTools_literal -> is_writable o = true ->
  o !! "writable" = Some (FBool true).
Proof.
  intros Hin Hw. unfold allTools_literal in Hin.
  repeat (apply elem_of_cons in Hin as [->|Hin]);
    try (by vm_compute in Hw); try (by vm_compute).
  by apply elem_of_nil in Hin.
Qed.

Lemma public_shape :
  Forall (fun o => dom (delete "writable" o) = public_keys) allTools_literal.
Proof. by (apply (bool_decide_unpack _); vm_compute). Qed.

Lemma switch_unknown (name : string) (args : Args) :
  name ∉ names allTools_literal -> switch name args = None.
Proof.
  rewrite catalog_names. intros Hn. unfold switch, cases. simpl.
  repeat match goal with
         | |- context [String.eqb name ?label] =>
             destruct (String.eqb_spec name label) as [->|_];
             [exfalso; apply Hn; by (apply (bool_decide_unpack _); vm_compute)|]
         end.
  done.
Qed.

Lemma unknown_not_gated (name : string) :
  name ∉ names allTools_literal -> bool_decide (name ∈ WRITABLE_TOOLS) = false.
Proof.
  rewrite catalog_names. intros Hn. apply bool_decide_eq_false_2. intros Hin.
  apply Hn. unfold WRITABLE_TOOLS in Hin. apply elem_of_list_to_set in Hin.
  repeat (apply elem_of_cons in Hin as [->|Hin]);
    [by (apply (bool_decide_unpack _); vm_compute) ..|].
  by apply elem_of_nil in Hin.
Qed.

Section WithHandlers.
Context {Data : Type}.
Variable spotClient : SpotClient.t -> ClientCall -> Res Data * SpotClient.t.
Variable JSON_stringify : Data -> string.

Local Abbreviation callTool := (callTool spotClient JSON_stringify).
Local Abbreviation serve := (serve spotClient JSON_stringify).

Lemma callTool_gated (name : string) (args : Args) (σ : State) :
  isReadOnly (env σ) = true -> name ∈ WRITABLE_TOOLS ->
  callTool name args σ = (error_result (read_only_message name), σ).
Proof.
  intros Hro Hin. unfold Server.callTool.
  by rewrite Hro, (bool_decide_eq_true_2 _ Hin).
Qed.

Lemma getClient_heap (σ : State) :
  heap (snd (getClient σ)) = heap σ ∧ env (snd (getClient σ)) = env σ.
Proof.
  unfold getClient. destruct (client σ); [done|].
  by destruct (getRefreshToken (env σ)).
Qed.

Lemma callTool_heap (name : string) (args : Args) (σ : State) :
  heap (snd (callTool name args σ)) = heap σ.
Proof.
  unfold Server.callTool.
  destruct (isReadOnly (env σ) && bool_decide (name ∈ WRITABLE_TOOLS)); [done|].
  pose proof (getClient_heap σ) as [Hh _].
  destruct (getClient σ) as [[c|e] σ1]; simpl in *; [|done].
  destruct (switch name args) as [call|]; [|done].
  destruct (spotClient c call) as [[data|e] c']; done.
Qed.

(** The catalog is in place when [main] has started the server and stays
    in place in every state the server reaches. *)
Lemma started_has_catalog (e : Env) : catalog_in (heap (started e)).
Proof. done. Qed.

Lemma serve_keeps_catalog (σ : State) (request : Incoming) :
  catalog_in (heap σ) ->
  ∃ reply σ', serve (Running σ) request = (Some reply, Running σ')
              ∧ catalog_in (heap σ').
Proof.
  intros Hc. destruct request as [|name args]; simpl.
  - rewrite (listTools_eq σ Hc). do 2 eexists. split; [done|]. simpl.
    destruct (catalog_in_split _ Hc) as [rest ->].
    rewrite <-app_assoc. apply catalog_in_app.
  - pose proof (callTool_heap name args σ) as Hh.
    destruct (callTool name args σ) as [result σ']. simpl in Hh.
    do 2 eexists. split; [done|]. by rewrite Hh.
Qed.

(** C1. In read-only mode, for every catalog entry tagged [writable] and
    whatever the arguments: its name is not among the names [ListTools]
    answers with; calling it answers with an error result, that is, a
    result flagged [isError: true] whose content is one text item, and
    that text names the tool and says it is not available in read-only
    mode; and the server state is exactly as before, so no method of the
    client was called (and no client was even created). *)
Theorem restricted_never_lists_or_runs_writable
  (σ : State) (o : Obj) (name : string) (args : Args) :
  isReadOnly (env σ) = true -> catalog_in (heap σ) ->
  o ∈ allTools_literal -> is_writable o = true -> tool_name o = Some name ->
  (name ∉ names (listed σ))
  ∧ callTool name args σ = (error_result (read_only_message name), σ)
  ∧ isError (fst (callTool name args σ)) = Some true
  ∧ content (fst (callTool name args σ))
    = [ {| type := "text"; text := read_only_message name |} ]
  ∧ calls (snd (callTool name args σ)) = calls σ
  ∧ includes (read_only_message name) "not available in read-only mode" = true
  ∧ includes (read_only_message name) name = true.
Proof.
  intros Hro Hc Hin Hw Hn.
  pose proof (writable_entry_gated o name Hin Hw Hn) as Hg.
  split; [|split; [|split; [|split; [|split]]]].
  - rewrite (listed_names_restricted σ Hro Hc).
    unfold WRITABLE_TOOLS in Hg. apply elem_of_list_to_set in Hg.
    repeat (apply elem_of_cons in Hg as [->|Hg]);
      [by (apply (bool_decide_unpack _); vm_compute) ..|].
    by apply elem_of_nil in Hg.
  - by apply callTool_gated.
  - by rewrite callTool_gated.
  - by rewrite callTool_gated.
  - by rewrite callTool_gated.
  - apply read_only_message_text.
Qed.

(** C2, as the code has it. The catalog has exactly 21 entries, exactly 6
    of them tagged [writable]; in read-only mode [ListTools] answers with
    exactly 15 entries, and calling [create_cloudspace] with any arguments
    answers with an error result, a result flagged [isError: true] whose
    content is one text item, and that text contains
    [not available in read-only mode]. *)
Theorem catalog_counts_and_restricted_listing :
  length allTools_literal = 21%nat
  ∧ length (filter (fun o => is_writable o = true) allTools_literal) = 6%nat
  ∧ ∀ σ : State,
      isReadOnly (env σ) = true -> catalog_in (heap σ) ->
      length (listed σ) = 15%nat
      ∧ ∀ args : Args,
          ∃ message,
            callTool "create_cloudspace" args σ = (error_result message, σ)
            ∧ isError (fst (callTool "create_cloudspace" args σ)) = Some true
            ∧ content (fst (callTool "create_cloudspace" args σ))
              = [ {| type := "text"; text := message |} ]
            ∧ includes message "not available in read-only mode" = true.
Proof.
  split; [done|]. split; [by vm_compute|].
  intros σ Hro Hc. split.
  - rewrite (listed_eq σ Hc). unfold visible. rewrite Hro. by vm_compute.
  - intros args. exists (read_only_message "create_cloudspace").
    assert (Hg : callTool "create_cloudspace" args σ
                 = (error_result (read_only_message "create_cloudspace"), σ)).
    { apply callTool_gated; [done|].
      by (apply (bool_decide_unpack _); vm_compute). }
    split; [exact Hg|]. rewrite Hg. split; [done|]. split; [done|].
    apply read_only_message_text.
Qed.

(** C9. In either mode, with the catalog in the store: every object
    [ListTools] answers with has no [writable] property, has exactly the
    properties [name], [description] and [inputSchema], and is a catalog
    entry with [writable] removed; the objects answered with are new ones,
    not references into the store as it was; every object that was in the
    store is still there unchanged, so the catalog is intact and each
    entry tagged [writable] still carries [writable: true]. *)
Theorem listing_projects_without_touching_catalog (σ : State) :
  catalog_in (heap σ) ->
  (∀ o', o' ∈ listed σ ->
         o' !! "writable" = None
         ∧ dom o' = public_keys
         ∧ ∃ o, o ∈ allTools_literal ∧ o' = delete "writable" o)
  ∧ listed σ = deref (heap (snd (listTools σ))) (fst (listTools σ))
  ∧ (∀ r', r' ∈ fst (listTools σ) -> heap σ !! r' = None)
  ∧ (∀ r o, heap σ !! r = Some o -> heap (snd (listTools σ)) !! r = Some o)
  ∧ catalog_in (heap (snd (listTools σ)))
  ∧ (∀ r o, allTools_literal !! r = Some o -> is_writable o = true ->
            get (heap (snd (listTools σ))) r "writable" = Some (FBool true)).
Proof.
  intros Hc. pose proof (listTools_eq σ Hc) as Hl.
  destruct (catalog_in_split _ Hc) as [rest Hh].
  split; [|split; [|split; [|split; [|split]]]].
  - intros o' Hin. rewrite (listed_eq σ Hc) in Hin.
    apply list_elem_of_fmap in Hin as (o & -> & Ho).
    apply visible_in_catalog in Ho.
    split; [apply lookup_delete_eq|]. split; [|by exists o].
    by apply (proj1 (Forall_forall _ _) public_shape).
  - unfold listed. by destruct (listTools σ).
  - intros r' Hr. rewrite Hl in Hr. simpl in Hr.
    apply elem_of_seq in Hr. apply lookup_ge_None_2. lia.
  - intros r o Hr. rewrite Hl. simpl. by apply lookup_app_l_Some.
  - rewrite Hl. simpl. rewrite Hh, <-app_assoc. apply catalog_in_app.
  - intros r o Hr Hw. rewrite Hl. simpl. rewrite Hh.
    unfold get. rewrite <-app_assoc.
    rewrite (lookup_app_l_Some _ _ _ _ Hr). simpl.
    apply writable_flag; [|done]. by eapply list_elem_of_lookup_2.
Qed.

(** C10. The set the call handler gates on is the set of names of the
    catalog entries tagged [writable]; so in read-only mode a catalog name
    is stopped by the gate exactly when [ListTools] leaves it out. *)
Theorem gate_agrees_with_listing :
  WRITABLE_TOOLS
  = list_to_set (names (filter (fun o => is_writable o = true) allTools_literal))
  ∧ ∀ (σ : State) (name : string),
      isReadOnly (env σ) = true -> catalog_in (heap σ) ->
      name ∈ names allTools_literal ->
      (isReadOnly (env σ) && bool_decide (name ∈ WRITABLE_TOOLS) = true
       ↔ name ∉ names (listed σ)).
Proof.
  split; [by rewrite writable_names|].
  intros σ name Hro Hc Hin.
  rewrite (listed_names_restricted σ Hro Hc), Hro. simpl.
  rewrite catalog_names in Hin.
  repeat (apply elem_of_cons in Hin as [->|Hin]);
    [by (apply (bool_decide_unpack _); vm_compute) ..|].
  by apply elem_of_nil in Hin.
Qed.

(** C7, as the code has it. [CallTool] always answers with a result
    envelope: either the stringified data a client method resolved to, or
    an error result whose text starts with [Error: ]. Whatever a client
    method throws is caught and answered as an error result carrying its
    message. A name that is not in the catalog is answered with
    [Error: Unknown tool: <name>], in either mode, once the client is
    there or can be created (the refresh token is set). *)
Theorem callTool_always_answers (name : string) (args : Args) (σ : State) :
  let result := fst (callTool name args σ) in
  ((∃ data c call c',
      switch name args = Some call
      ∧ spotClient c call = (Ok data, c')
      ∧ result = {| content := [ text_item (JSON_stringify data) ];
                    isError := None |})
   ∨ (∃ message, result = error_result ("Error: " +:+ message)))
  ∧ (∀ c σ1 call e c',
       isReadOnly (env σ) && bool_decide (name ∈ WRITABLE_TOOLS) = false ->
       getClient σ = (Ok c, σ1) ->
       switch name args = Some call ->
       spotClient c call = (Throw e, c') ->
       result = caught e
       ∧ isError result = Some true
       ∧ content result
         = [ text_item ("Error: " +:+ match e with
                                      | ErrorObj message => message
                                      | NonError shown => shown
                                      end) ])
  ∧ (∀ c σ1,
       name ∉ names allTools_literal ->
       getClient σ = (Ok c, σ1) ->
       callTool name args σ
       = (error_result ("Error: Unknown tool: " +:+ name), σ1)).
Proof.
  intros result. unfold result, Server.callTool. split; [|split].
  - destruct (isReadOnly (env σ) && bool_decide (name ∈ WRITABLE_TOOLS)).
    { right. by eexists. }
    destruct (getClient σ) as [[c|e] σ1]; [|right; by eexists].
    destruct (switch name args) as [call|] eqn:Hs; [|right; by eexists].
    destruct (spotClient c call) as [[data|e] c'] eqn:Hc.
    + left. by exists data, c, call, c'.
    + right. by eexists.
  - by intros c σ1 call e c' -> -> -> ->.
  - intros c σ1 Hn ->.
    by rewrite (unknown_not_gated name Hn), andb_false_r,
         (switch_unknown name args Hn).
Qed.

(** C8, as the code has it. Answering a request never ends the process:
    a running server is still running after any [ListTools] or [CallTool]
    request. [main] does not look at the refresh token: whatever the
    environment, the server starts once the transport is connected (and
    only a failure to connect makes [main] exit). Without the token, each
    call that gets past the read-only gate is answered with the error
    result saying that the variable is required, and the server stays as
    it was. *)
Theorem process_outlives_calls_and_starts_without_token :
  (∀ (σ : State) (request : Incoming),
      ∃ reply σ', serve (Running σ) request = (Some reply, Running σ'))
  ∧ (∀ e : Env, main e (Ok tt) = Running (started e))
  ∧ (∀ (e : Env) (x : Thrown), main e (Throw x) = Exited 1)
  ∧ (∀ (e : Env) (name : string) (args : Args),
        truthy (e !! "RACKSPACE_SPOT_REFRESH_TOKEN") = false ->
        isReadOnly e && bool_decide (name ∈ WRITABLE_TOOLS) = false ->
        callTool name args (started e)
        = ({| content := [ {| type := "text";
                              text := "Error: " +:+ refresh_token_required |} ];
              isError := Some true |}, started e)).
Proof.
  split; [|split; [|split]].
  - intros σ [|name args]; simpl.
    + destruct (listTools σ). by do 2 eexists.
    + destruct (callTool name args σ). by do 2 eexists.
  - done.
  - done.
  - intros e name args Ht Hg. unfold Server.callTool, getClient, started. simpl.
    rewrite Hg. unfold getRefreshToken.
    by destruct (e !! "RACKSPACE_SPOT_REFRESH_TOKEN") as [[|]|].
Qed.

End WithHandlers.
End ServerFacts.

(** *** The test servers run through the statements above *)

Section ServerExamples.
Import Server.

Local Abbreviation callTool := (callTool quietClient stringify_unit).

(** The integration tests, replayed on the model. *)

Example test_read_only_discovery :
  names (listed (started readOnlyEnv))
  = [ "list_regions"; "get_region"; "list_server_classes"; "get_server_class";
      "list_organizations"; "list_cloudspaces"; "get_cloudspace";
      "list_spot_node_pools"; "get_spot_node_pool";
      "list_ondemand_node_pools"; "get_ondemand_node_pool"; "get_kubeconfig";
      "get_market_pricing"; "get_price_history"; "get_percentile_pricing" ].
Proof. by vm_compute. Qed.

Example test_read_write_discovery :
  names (listed (started readWriteEnv)) = names allTools_literal
  ∧ length (listed (started readWriteEnv)) = (15 + 6)%nat.
Proof. by vm_compute. Qed.

Example test_read_only_flag_values :
  isReadOnly {[ "RACKSPACE_SPOT_READ_ONLY" := "1" ]} = true
  ∧ isReadOnly {[ "RACKSPACE_SPOT_READ_ONLY" := "true" ]} = true
  ∧ isReadOnly {[ "RACKSPACE_SPOT_READ_ONLY" := "false" ]} = false
  ∧ isReadOnly ∅ = false.
Proof. by vm_compute. Qed.

Example test_unknown_tool :
  fst (callTool "nonexistent_tool" no_args (started readWriteEnv))
  = error_result "Error: Unknown tool: nonexistent_tool".
Proof. by vm_compute. Qed.

(** [create_cloudspace] on the read-only test server. *)
Lemma restricted_never_lists_or_runs_writable_witness :
  isReadOnly (env (started readOnlyEnv)) = true
  ∧ catalog_in (heap (started readOnlyEnv))
  ∧ is_writable create_cloudspace_entry = true
  ∧ tool_name create_cloudspace_entry = Some "create_cloudspace"
  ∧ ("create_cloudspace" ∉ names (listed (started readOnlyEnv)))
  ∧ callTool "create_cloudspace" create_cloudspace_args (started readOnlyEnv)
    = (error_result (read_only_message "create_cloudspace"), started readOnlyEnv)
  ∧ isError (fst (callTool "create_cloudspace" create_cloudspace_args
                    (started readOnlyEnv))) = Some true.
Proof.
  assert (H1 : isReadOnly (env (started readOnlyEnv)) = true) by reflexivity.
  assert (H2 : catalog_in (heap (started readOnlyEnv))) by reflexivity.
  assert (H3 : create_cloudspace_entry ∈ allTools_literal).
  { apply (list_elem_of_lookup_2 _ 7%nat). reflexivity. }
  assert (H4 : is_writable create_cloudspace_entry = true) by reflexivity.
  assert (H5 : tool_name create_cloudspace_entry = Some "create_cloudspace")
    by reflexivity.
  pose proof (restricted_never_lists_or_runs_writable quietClient stringify_unit
                (started readOnlyEnv) create_cloudspace_entry "create_cloudspace"
                create_cloudspace_args H1 H2 H3 H4 H5) as (Ha & Hb & He & _).
  repeat (split; [assumption|]). exact He.
Defined.

(** C2 fails on the code: the catalog does not have 22 entries and the
    read-only listing does not have 16; they have 21 and 15. *)
Lemma catalog_is_not_22_commands :
  length allTools_literal = 21%nat
  ∧ length allTools_literal ≠ 22%nat
  ∧ length (listed (started readOnlyEnv)) = 15%nat
  ∧ length (listed (started readOnlyEnv)) ≠ 16%nat.
Proof.
  assert (H : length (listed (started readOnlyEnv)) = 15%nat) by (by vm_compute).
  split; [done|]. split; [done|]. split; [exact H|]. rewrite H. discriminate.
Qed.

Lemma catalog_counts_and_restricted_listing_witness :
  isReadOnly (env (started readOnlyEnv)) = true
  ∧ catalog_in (heap (started readOnlyEnv))
  ∧ length (listed (started readOnlyEnv)) = 15%nat
  ∧ ∃ message,
      callTool "create_cloudspace" create_cloudspace_args (started readOnlyEnv)
      = (error_result message, started readOnlyEnv)
      ∧ isError (fst (callTool "create_cloudspace" create_cloudspace_args
                        (started readOnlyEnv))) = Some true
      ∧ content (fst (callTool "create_cloudspace" create_cloudspace_args
                        (started readOnlyEnv)))
        = [ {| type := "text"; text := message |} ]
      ∧ includes message "not available in read-only mode" = true.
Proof.
  assert (H1 : isReadOnly (env (started readOnlyEnv)) = true) by reflexivity.
  assert (H2 : catalog_in (heap (started readOnlyEnv))) by reflexivity.
  destruct (proj2 (proj2 (catalog_counts_and_restricted_listing
                            quietClient stringify_unit))
              (started readOnlyEnv) H1 H2) as [Ha Hb].
  split; [exact H1|]. split; [exact H2|]. split; [exact Ha|].
  exact (Hb create_cloudspace_args).
Defined.

(** Listing on the read-write test server: the entry answered in the place
    of [create_cloudspace] has lost the flag, the catalog entry has not. *)
Lemma listing_projects_without_touching_catalog_witness :
  catalog_in (heap (started readWriteEnv))
  ∧ (∀ o', o' ∈ listed (started readWriteEnv) -> o' !! "writable" = None)
  ∧ get (heap (snd (listTools (started readWriteEnv)))) 7 "writable"
    = Some (FBool true).
Proof.
  assert (H : catalog_in (heap (started readWriteEnv))) by reflexivity.
  destruct (listing_projects_without_touching_catalog (started readWriteEnv) H)
    as (Ha & _ & _ & _ & _ & Hb).
  split; [exact H|]. split.
  - intros o' Hin. exact (proj1 (Ha o' Hin)).
  - apply (Hb 7%nat create_cloudspace_entry); reflexivity.
Defined.

Lemma gate_agrees_with_listing_witness :
  isReadOnly (env (started readOnlyEnv)) = true
  ∧ catalog_in (heap (started readOnlyEnv))
  ∧ "delete_spot_node_pool" ∈ names allTools_literal
  ∧ (isReadOnly (env (started readOnlyEnv))
     && bool_decide ("delete_spot_node_pool" ∈ WRITABLE_TOOLS) = true
     ↔ "delete_spot_node_pool" ∉ names (listed (started readOnlyEnv))).
Proof.
  assert (H1 : isReadOnly (env (started readOnlyEnv)) = true) by reflexivity.
  assert (H2 : catalog_in (heap (started readOnlyEnv))) by reflexivity.
  assert (H3 : "delete_spot_node_pool" ∈ names allTools_literal).
  { apply (list_elem_of_lookup_2 _ 12%nat). reflexivity. }
  split; [exact H1|]. split; [exact H2|]. split; [exact H3|].
  exact (proj2 gate_agrees_with_listing
           (started readOnlyEnv) "delete_spot_node_pool" H1 H2 H3).
Defined.

(** C7 fails on the code: on a server started without the refresh token,
    a name that is not in the catalog is answered with the complaint about
    the missing variable, which does not say that the tool is unknown. *)
Lemma unknown_tool_without_token :
  ("nonexistent_tool" ∉ names allTools_literal)
  ∧ callTool "nonexistent_tool" no_args (started noTokenEnv)
    = (error_result ("Error: " +:+ refresh_token_required), started noTokenEnv)
  ∧ includes ("Error: " +:+ refresh_token_required) "Unknown tool" = false
  ∧ includes ("Error: " +:+ refresh_token_required) "nonexistent_tool" = false.
Proof.
  split; [by (apply (bool_decide_unpack _); vm_compute)|].
  split; [by vm_compute|]. split; by vm_compute.
Qed.

(** The unknown tool of the integration test, on a server that has its
    token; a method that rejects, on the same server. *)
Lemma callTool_always_answers_witness :
  ("nonexistent_tool" ∉ names allTools_literal)
  ∧ fst (callTool "nonexistent_tool" no_args (started readOnlyEnv))
    = error_result "Error: Unknown tool: nonexistent_tool"
  ∧ fst (Server.callTool failingClient stringify_unit
           "list_regions" no_args (started readWriteEnv))
    = error_result "Error: Failed to list regions: {}".
Proof.
  assert (H : "nonexistent_tool" ∉ names allTools_literal).
  { apply (bool_decide_unpack _). vm_compute. exact I. }
  split; [exact H|]. split.
  - rewrite (proj2 (proj2 (callTool_always_answers quietClient stringify_unit
                             "nonexistent_tool" no_args (started readOnlyEnv)))
               _ _ H eq_refl).
    reflexivity.
  - refine (proj1 (proj1 (proj2 (callTool_always_answers failingClient stringify_unit
                                   "list_regions" no_args (started readWriteEnv)))
                     _ _ _ _ _ eq_refl eq_refl eq_refl eq_refl)).
Defined.

(** C8 fails on the code: with no refresh token in the environment [main]
    starts the server all the same, and the missing token shows only when
    a tool is called. *)
Lemma server_starts_without_token :
  truthy (noTokenEnv !! "RACKSPACE_SPOT_REFRESH_TOKEN") = false
  ∧ main noTokenEnv (Ok tt) = Running (started noTokenEnv)
  ∧ (∀ code, main noTokenEnv (Ok tt) ≠ Exited code)
  ∧ serve quietClient stringify_unit (main noTokenEnv (Ok tt))
      (CallTool "list_regions" no_args)
    = (Some (ToolResult (error_result ("Error: " +:+ refresh_token_required))),
       Running (started noTokenEnv)).
Proof.
  split; [done|]. split; [done|]. split; [done|]. by vm_compute.
Qed.

Lemma process_outlives_calls_and_starts_without_token_witness :
  truthy (noTokenEnv !! "RACKSPACE_SPOT_REFRESH_TOKEN") = false
  ∧ isReadOnly noTokenEnv && bool_decide ("list_regions" ∈ WRITABLE_TOOLS) = false
  ∧ callTool "list_regions" no_args (started noTokenEnv)
    = (error_result ("Error: " +:+ refresh_token_required), started noTokenEnv).
Proof.
  split; [reflexivity|]. split; [reflexivity|].
  exact (proj2 (proj2 (proj2 (process_outlives_calls_and_starts_without_token
                                quietClient stringify_unit)))
           noTokenEnv "list_regions" no_args eq_refl eq_refl).
Defined.

End ServerExamples.

(** * Further properties

    What else the code shows of the session, the dispatch and the traffic
    of a call. *)

(** ** Substrings *)

Lemma prefix_true (p s : string) :
  String.prefix p s = true ↔ ∃ b, s = p +:+ b.
Proof.
  revert s. induction p as [|c p IH]; intros s.
  - split; [intros _; by exists s|by destruct s].
  - destruct s as [|c' s]; simpl.
    + split; [done|]. by intros [b Hb].
    + destruct (Ascii.ascii_dec c c') as [->|Hne].
      * rewrite IH. split; intros [b Hb]; exists b.
        -- by rewrite Hb.
        -- change (String c' p +:+ b) with (String c' (p +:+ b)) in Hb.
           by injection Hb.
      * split; [done|]. intros [b Hb].
        change (String c p +:+ b) with (String c (p +:+ b)) in Hb. congruence.
Qed.

Lemma includes_true (s p : string) :
  includes s p = true ↔ ∃ a b, s = a +:+ p +:+ b.
Proof.
  induction s as [|c s IH].
  - destruct p as [|c p]; simpl.
    + split; [intros _; by exists EmptyString, EmptyString|done].
    + split; [done|]. by intros ([|c' a] & b & Hab).
  - unfold includes; fold includes. rewrite orb_true_iff, prefix_true, IH. split.
    + intros [[b Hb]|(a & b & Hab)].
      * by exists EmptyString, b.
      * exists (String c a), b. by rewrite Hab.
    + intros ([|c' a] & b & Hab).
      * left. by exists b.
      * right. exists a, b.
        change (String c' a +:+ p +:+ b) with (String c' (a +:+ p +:+ b)) in Hab.
        by injection Hab.
Qed.

(** ** More on the session manager *)

Section SessionFacts.
Import SpotClient.
Context {Json : Type}.
Variable as_TokenResponse : Json -> TokenResponse.
Variable customFetch : nat -> Request -> Res (Response (Json:=Json)).
Variable Date_now : nat -> Z.

Local Abbreviation authenticate := (authenticate as_TokenResponse customFetch Date_now).
Local Abbreviation authenticate_response :=
  (authenticate_response as_TokenResponse Date_now).
Local Abbreviation ensureAuthenticated :=
  (ensureAuthenticated as_TokenResponse customFetch Date_now).
Local Abbreviation token_still_valid := (token_still_valid Date_now).
Local Abbreviation fetch := (fetch customFetch).
Local Abbreviation onRequest := (onRequest as_TokenResponse customFetch Date_now).
Local Abbreviation client_send := (client_send as_TokenResponse customFetch Date_now).
Local Abbreviation pricing_call := (pricing_call as_TokenResponse customFetch Date_now).

(** What a resolved [authenticate] has done. *)
Lemma authenticate_resolved (w w1 : World) :
  authenticate w = (Ok tt, w1) ->
  ∃ response data,
    customFetch (length (fetch_log w)) (token_request (client w)) = Ok response
    ∧ ok response = true
    ∧ json response = Ok data
    ∧ w1 = {| client := set_session (client w) (id_token (as_TokenResponse data))
                          (Date_now (clock_reads w)
                           + expires_in (as_TokenResponse data) * 1000);
              fetch_log := fetch_log w ++ [token_request (client w)];
              clock_reads := S (clock_reads w) |}.
Proof.
  rewrite authenticate_eq.
  destruct (customFetch _ _) as [response|e]; [|done].
  unfold SpotClient.authenticate_response, bind, lift, throw, this, now, set_this.
  destruct (ok response) eqn:Hok; simpl; [|done].
  destruct (json response) as [data|e] eqn:Hj; simpl; [|done].
  intros [= <-]. by exists response, data.
Qed.

(** What a rejected [authenticate] has done: the request is in the log
    and nothing else has changed. *)
Lemma authenticate_rejected (w w1 : World) (e : Thrown) :
  authenticate w = (Throw e, w1) ->
  w1 = {| client := client w;
          fetch_log := fetch_log w ++ [token_request (client w)];
          clock_reads := clock_reads w |}.
Proof.
  rewrite authenticate_eq.
  destruct (customFetch _ _) as [response|e']; [|by intros [= _ <-]].
  unfold SpotClient.authenticate_response, bind, lift, throw, this, now, set_this.
  destruct (ok response) eqn:Hok; simpl; [|by intros [= _ <-]].
  destruct (json response) as [data|e'] eqn:Hj; simpl; [done|by intros [= _ <-]].
Qed.

(** The world once the validity test is over. *)
Lemma ensureAuthenticated_eq (w : World) :
  ensureAuthenticated w
  = match token_still_valid w with
    | (Ok true, w0) => (Ok tt, w0)
    | (_, w0) => authenticate w0
    end.
Proof.
  unfold SpotClient.ensureAuthenticated, bind. rewrite token_still_valid_eq.
  destruct (truthy _); [|done]. by destruct (_ <? _).
Qed.

Lemma checked_same (w : World) :
  client (snd (token_still_valid w)) = client w
  ∧ fetch_log (snd (token_still_valid w)) = fetch_log w
  ∧ (clock_reads w ≤ clock_reads (snd (token_still_valid w)) ≤ S (clock_reads w))%nat.
Proof.
  rewrite token_still_valid_eq. destruct (truthy _); simpl; repeat split; lia.
Qed.

(** X1. After [authenticate] has resolved, the cached token is the
    [id_token] of the response (not its [access_token]) and the expiry is
    the time read after the response plus [expires_in] seconds. The session
    is then valid at a time [now] exactly when that token is not empty and
    [now] is more than 60 s before the expiry; so a token that lasts 60 s
    or less is not valid at any time from the exchange on. *)
Theorem session_lifetime (w w1 : World) (now : Z) :
  authenticate w = (Ok tt, w1) ->
  ∃ response data,
    customFetch (length (fetch_log w)) (token_request (client w)) = Ok response
    ∧ json response = Ok data
    ∧ accessToken (client w1) = Some (id_token (as_TokenResponse data))
    ∧ tokenExpiry (client w1)
      = Date_now (clock_reads w) + expires_in (as_TokenResponse data) * 1000
    ∧ (session_valid_at (client w1) now
       ↔ id_token (as_TokenResponse data) ≠ EmptyString
         ∧ now < Date_now (clock_reads w)
                 + expires_in (as_TokenResponse data) * 1000 - 60000)
    ∧ (expires_in (as_TokenResponse data) ≤ 60 ->
       Date_now (clock_reads w) ≤ now ->
       ¬ session_valid_at (client w1) now).
Proof.
  intros H. destruct (authenticate_resolved w w1 H) as (response & data & Hf & _ & Hj & ->).
  exists response, data. simpl.
  split; [done|]. split; [done|]. split; [done|]. split; [done|].
  unfold session_valid_at. simpl. split.
  - split.
    + intros [Ht Hn]. split; [|done]. by destruct (id_token _).
    + intros [Ht Hn]. split; [|done]. by destruct (id_token _).
  - intros Hshort Hlater [_ Hn]. lia.
Qed.

(** X2. A call of [ensureAuthenticated] that rejects has sent one exchange
    and left the cached token and expiry as they were; no failure is
    remembered, so with a clock that does not run backwards the next call
    sends an exchange again. *)
Theorem failed_exchange_is_retried (w w1 : World) (e : Thrown) :
  (∀ n, Date_now n ≤ Date_now (S n)) ->
  ensureAuthenticated w = (Throw e, w1) ->
  client w1 = client w
  ∧ exchanges w1 = S (exchanges w)
  ∧ exchanges (snd (ensureAuthenticated w1)) = S (S (exchanges w)).
Proof.
  intros Hclock H.
  assert (Hstale : ¬ session_valid_at (client w) (Date_now (clock_reads w))).
  { intros Hv. by rewrite (ensureAuthenticated_valid _ _ _ w Hv) in H. }
  pose proof (ensureAuthenticated_stale as_TokenResponse customFetch Date_now w Hstale)
    as Hx.
  rewrite H in Hx. simpl in Hx.
  rewrite ensureAuthenticated_eq in H.
  destruct (checked_same w) as (Hc & Hl & Ht).
  assert (Ha : authenticate (snd (token_still_valid w)) = (Throw e, w1)).
  { by destruct (token_still_valid w) as [[[]|e'] w0]. }
  apply authenticate_rejected in Ha. rewrite Hc, Hl in Ha.
  assert (Hcl : client w1 = client w) by (by subst w1).
  split; [done|]. split; [done|].
  rewrite ensureAuthenticated_stale; [by rewrite Hx|].
  rewrite Hcl. apply session_invalid_iff.
  apply session_invalid_iff in Hstale as [Hf|Hle]; [by left|right].
  assert (clock_reads w1 = clock_reads (snd (token_still_valid w))) as -> by (by subst w1).
  assert (Date_now (clock_reads w)
          ≤ Date_now (clock_reads (snd (token_still_valid w)))); [|lia].
  destruct (decide (clock_reads (snd (token_still_valid w)) = clock_reads w)) as [->|Hne];
    [lia|].
  assert (clock_reads (snd (token_still_valid w)) = S (clock_reads w)) as -> by lia.
  apply Hclock.
Qed.

(** X3. Any number of calls of [ensureAuthenticated] made while a token
    is cached and the clock stays more than 60 s short of its expiry
    resolve without an exchange and leave the session as it is; each reads
    the clock once. *)
Theorem token_reused_within_window (n : nat) (w : World) :
  truthy (accessToken (client w)) = true ->
  (∀ i, (i < n)%nat ->
        Date_now (clock_reads w + i)%nat < tokenExpiry (client w) - 60000) ->
  let after k := Nat.iter k (fun w => snd (ensureAuthenticated w)) w in
  (∀ k, (k < n)%nat -> fst (ensureAuthenticated (after k)) = Ok tt)
  ∧ exchanges (after n) = exchanges w
  ∧ fetch_log (after n) = fetch_log w
  ∧ client (after n) = client w
  ∧ clock_reads (after n) = (clock_reads w + n)%nat.
Proof.
  intros Ht Hwin after.
  assert (Hstep : ∀ k, (k ≤ n)%nat ->
            fetch_log (after k) = fetch_log w
            ∧ client (after k) = client w
            ∧ clock_reads (after k) = (clock_reads w + k)%nat).
  { induction k as [|k IH]; intros Hk.
    - simpl. repeat split; lia.
    - destruct IH as (Hl & Hc & Hr); [lia|].
      assert (Hv : session_valid_at (client (after k))
                     (Date_now (clock_reads (after k)))).
      { rewrite Hc, Hr. split; [done|]. apply Hwin. lia. }
      unfold after at 1 2 3. simpl. fold (after k).
      rewrite (ensureAuthenticated_valid _ _ _ (after k) Hv). simpl.
      rewrite Hl, Hc, Hr. repeat split; lia. }
  split.
  - intros k Hk. destruct (Hstep k) as (Hl & Hc & Hr); [lia|].
    rewrite ensureAuthenticated_valid; [done|].
    rewrite Hc, Hr. split; [done|]. by apply Hwin.
  - destruct (Hstep n) as (Hl & Hc & Hr); [lia|].
    unfold exchanges. by rewrite Hl.
Qed.

Lemma pricing_call_rejected (path what : string) (w w1 : World) (e : Thrown) :
  ensureAuthenticated w = (Throw e, w1) ->
  pricing_call path what w = (Throw e, w1).
Proof.
  intros He. unfold SpotClient.pricing_call, bind at 1. by rewrite He.
Qed.

(** X4. A pricing call sends its request only after [ensureAuthenticated]
    has resolved, and then with [Bearer] and the cached token, which is
    never [null] at that point. A response that is not [ok] is thrown as
    [Failed to get <what>: <status> - <body>]; the request is not sent
    again and the cached session is kept as it is, whatever the status. *)
Theorem pricing_call_outcomes (path what : string) (w : World) :
  (∀ w1 e, ensureAuthenticated w = (Throw e, w1) ->
           pricing_call path what w = (Throw e, w1))
  ∧ (∀ w1, ensureAuthenticated w = (Ok tt, w1) ->
       let request := pricing_request (client w1) path in
       let sent := {| client := client w1;
                      fetch_log := fetch_log w1 ++ [request];
                      clock_reads := clock_reads w1 |} in
       (∃ tok, accessToken (client w1) = Some tok
               ∧ headers request !! "Authorization" = Some ("Bearer " +:+ tok))
       ∧ snd (pricing_call path what w) = sent
       ∧ ∀ response,
           customFetch (length (fetch_log w1)) request = Ok response ->
           fst (pricing_call path what w)
           = if ok response then json response
             else Throw (ErrorObj ("Failed to get " +:+ what +:+ ": "
                                     +:+ pretty (status response)
                                     +:+ " - " +:+ text response))).
Proof.
  split.
  - intros w1 e He. by apply pricing_call_rejected.
  - intros w1 He request sent. split; [|split].
    + rewrite ensureAuthenticated_eq in He.
      destruct (checked_same w) as (Hc & _).
      destruct (token_still_valid w) as [[[]|e] w0] eqn:Hv; simpl in *.
      * injection He as <-. rewrite token_still_valid_eq in Hv.
        destruct (accessToken (client w)) as [tok|] eqn:Htok; [|done].
        exists tok. unfold request, pricing_request. simpl.
        rewrite Hc, Htok. done.
      * apply authenticate_resolved in He as (r & d & _ & _ & _ & ->).
        by eexists.
      * apply authenticate_resolved in He as (r & d & _ & _ & _ & ->).
        by eexists.
    + by apply pricing_call_sends.
    + intros response Hf. unfold SpotClient.pricing_call, bind at 1. rewrite He.
      unfold bind, this. simpl. fold request. rewrite Hf.
      unfold throw, lift. by destruct (ok response).
Qed.

(** X5. Exemption from authentication goes by substring: a URL is exempt
    exactly when [/oauth/token] or [/generate-kubeconfig] occurs somewhere
    in it, wherever that is. *)
Theorem auth_exempt_iff (u : string) :
  auth_exempt u = true
  ↔ ∃ a b, u = a +:+ "/oauth/token" +:+ b
           ∨ u = a +:+ "/generate-kubeconfig" +:+ b.
Proof.
  unfold auth_exempt. rewrite orb_true_iff, !includes_true. split.
  - intros [(a & b & H)|(a & b & H)]; exists a, b; [by left|by right].
  - intros (a & b & [H|H]); [left|right]; by exists a, b.
Qed.

Local Abbreviation resume := (resume as_TokenResponse customFetch Date_now).
Local Abbreviation run_caller := (run_caller as_TokenResponse customFetch Date_now).
Local Abbreviation run_schedule := (run_schedule as_TokenResponse customFetch Date_now).

(** A caller taking both its turns in a row. *)
Lemma run_caller_twice (p : Pool) (i : nat) :
  callers p !! i = Some Ready ->
  ∃ t r, run_schedule [i; i] p
         = {| world := snd (ensureAuthenticated (world p));
              callers := <[ i := Returned t r ]> (callers p) |}.
Proof.
  intros Hi. pose proof (lookup_lt_Some _ _ _ Hi) as Hlt.
  destruct (resume_alone as_TokenResponse customFetch Date_now (world p))
    as [Hw [n Hk]].
  unfold SpotClient.run_schedule. simpl. unfold SpotClient.run_caller at 2. rewrite Hi.
  destruct (resume Ready (world p)) as [k1 w1] eqn:H1. simpl in *.
  unfold SpotClient.run_caller. simpl.
  rewrite list_lookup_insert_eq by done.
  destruct (resume k1 w1) as [k2 w2] eqn:H2. simpl in *.
  eexists _, _. rewrite list_insert_insert_eq. by subst w2 k2.
Qed.

(** X6. Callers that do not overlap, each run from its start to its return
    before the next one starts, leave the world as the same number of
    calls of [ensureAuthenticated] made one after the other, and every
    caller has returned. (The duplicate exchanges of callers in flight
    together need the overlap.) *)
Theorem callers_in_turn (n : nat) (w : World) :
  let p := run_schedule (flat_map (fun i => [i; i]) (seq 0 n)) (start w n) in
  world p = Nat.iter n (fun w => snd (ensureAuthenticated w)) w
  ∧ length (callers p) = n
  ∧ Forall (fun k => ∃ t r, k = Returned t r) (callers p).
Proof.
  assert (Hgen : ∀ k done p,
            callers p = done ++ replicate k Ready ->
            Forall (fun k => ∃ t r, k = Returned t r) done ->
            let q := run_schedule
                       (flat_map (fun i => [i; i]) (seq (length done) k)) p in
            world q = Nat.iter k (fun w => snd (ensureAuthenticated w)) (world p)
            ∧ length (callers q) = (length done + k)%nat
            ∧ Forall (fun k => ∃ t r, k = Returned t r) (callers q)).
  { induction k as [|k IH]; intros done p Hp Hd q.
    - unfold q. simpl. rewrite Hp, app_nil_r. split; [done|]. split; [lia|done].
    - unfold q.
      change (run_schedule (flat_map (fun i => [i; i]) (seq (length done) (S k))) p)
        with (run_schedule (flat_map (fun i => [i; i]) (seq (S (length done)) k))
                (run_schedule [length done; length done] p)).
      destruct (run_caller_twice p (length done)) as (t & r & ->).
      { rewrite Hp. by apply list_lookup_middle. }
      set (k' := Returned t r).
      set (p' := {| world := snd (ensureAuthenticated (world p));
                    callers := <[ length done := k' ]> (callers p) |}).
      assert (Hp' : callers p' = (done ++ [k']) ++ replicate k Ready).
      { unfold p'. simpl. rewrite Hp. simpl.
        rewrite insert_app_r_alt, Nat.sub_diag by done. simpl.
        by rewrite <-app_assoc. }
      assert (Hd' : Forall (fun k => ∃ t r, k = Returned t r) (done ++ [k'])).
      { apply Forall_app. split; [done|]. apply Forall_singleton.
        by eexists _, _. }
      specialize (IH (done ++ [k']) p' Hp' Hd').
      rewrite length_app in IH. simpl in IH. rewrite Nat.add_1_r in IH.
      destruct IH as (Hw & Hl & Hall).
      split; [|split; [lia|done]].
      rewrite Hw. unfold p'. simpl. symmetry.
      exact (Nat.iter_succ_r k _ (fun w0 => snd (ensureAuthenticated w0)) (world p)). }
  intros p. specialize (Hgen n [] (start w n) eq_refl (Forall_nil_2 _)).
  simpl in Hgen. exact Hgen.
Qed.
End SessionFacts.

(** ** More on the dispatch *)

Section DispatchFacts.
Import Server Catalog.

Lemma catalog_name_cases (name : string) (P : string -> Prop) :
  name ∈ names allTools_literal ->
  Forall P (names allTools_literal) -> P name.
Proof. intros Hin Hall. by apply (proj1 (Forall_forall _ _) Hall). Qed.

(** A catalog name has its case in the switch. *)
Lemma switch_known (name : string) (args : Args) :
  name ∈ names allTools_literal -> switch name args ≠ None.
Proof.
  intros Hin Hs. rewrite catalog_names in Hin.
  repeat (apply elem_of_cons in Hin as [->|Hin]); try discriminate Hs.
  by apply elem_of_nil in Hin.
Qed.

(** X7. The switch of the call handler and the catalog cover the same
    names: the case labels are the catalog names, in the same order and
    without repetition, so a name falls through to [default] exactly when
    it is not in the catalog. *)
Theorem switch_covers_catalog (name : string) (args : Args) :
  (cases args).*1 = names allTools_literal
  ∧ NoDup (names allTools_literal)
  ∧ (switch name args = None ↔ name ∉ names allTools_literal).
Proof.
  split; [by rewrite catalog_names|]. split; [apply catalog_names_unique|].
  split; [|apply switch_unknown].
  intros Hs Hin. by apply (switch_known name args Hin).
Qed.

(** Arguments reach the handler only through the switch. *)
Lemma switch_ext (name : string) (a1 a2 : Args) :
  (∀ k, k ∈ declared name -> arg a1 k = arg a2 k) ->
  switch name a1 = switch name a2.
Proof.
  intros H. unfold switch, cases. simpl.
  repeat match goal with
         | |- context [String.eqb name ?label] =>
             destruct (String.eqb_spec name label) as [->|_];
             [repeat match goal with
                     | |- context [arg a1 ?k] =>
                         rewrite (H k)
                           by (by (apply (bool_decide_unpack _); vm_compute))
                     end; reflexivity|]
         end.
  done.
Qed.

Section WithHandlers.
Context {Data : Type}.
Variable spotClient : SpotClient.t -> ClientCall -> Res Data * SpotClient.t.
Variable JSON_stringify : Data -> string.

Local Abbreviation callTool := (callTool spotClient JSON_stringify).

Local Abbreviation answer := (answer spotClient JSON_stringify).

Lemma callTool_performs (name : string) (args : Args) (σ σ1 : State)
  (c : SpotClient.t) (call : ClientCall) :
  isReadOnly (env σ) && bool_decide (name ∈ WRITABLE_TOOLS) = false ->
  getClient σ = (Ok c, σ1) ->
  switch name args = Some call ->
  callTool name args σ
  = (answer c call,
     {| env := env σ1; heap := heap σ1;
        client := Some (snd (spotClient c call));
        calls := calls σ1 ++ [call] |}).
Proof.
  intros Hg Hc Hs. unfold Server.callTool, answer. rewrite Hg, Hc, Hs.
  by destruct (spotClient c call) as [[data|e] c'].
Qed.

(** X8. The arguments of a call matter only through the properties that
    the tool's input schema declares: two argument objects that agree on
    those (an absent object counting as an empty one) get the same answer
    and leave the same state. Nothing is checked against the schema, and
    what the schema does not declare is never read. *)
Theorem only_declared_arguments_matter
  (name : string) (a1 a2 : Args) (σ : State) :
  (∀ k, k ∈ declared name -> arg a1 k = arg a2 k) ->
  callTool name a1 σ = callTool name a2 σ.
Proof.
  intros H. unfold Server.callTool. by rewrite (switch_ext name a1 a2 H).
Qed.

(** X9. What [ListTools] answers with is the whole catalog in read-write
    mode and the entries not tagged [writable] in read-only mode, in
    catalog order. In either mode every name it answers with passes the
    gate and has a case in the switch, so that with a client at hand its
    method is called exactly once and the answer is what that method
    resolved to or threw. *)
Theorem listed_tools_run (σ : State) (name : string) (args : Args) :
  catalog_in (heap σ) ->
  names (listed σ)
  = names (if isReadOnly (env σ)
           then filter (fun o => is_writable o = false) allTools_literal
           else allTools_literal)
  ∧ (name ∈ names (listed σ) ->
     isReadOnly (env σ) && bool_decide (name ∈ WRITABLE_TOOLS) = false
     ∧ ∃ call,
         switch name args = Some call
         ∧ ∀ c σ1,
             getClient σ = (Ok c, σ1) ->
             fst (callTool name args σ) = answer c call
             ∧ calls (snd (callTool name args σ)) = calls σ ++ [call]).
Proof.
  intros Hc.
  assert (Hn : names (listed σ)
               = names (if isReadOnly (env σ)
                        then filter (fun o => is_writable o = false) allTools_literal
                        else allTools_literal)).
  { rewrite (listed_eq σ Hc). unfold visible.
    destruct (isReadOnly (env σ)); by vm_compute. }
  split; [exact Hn|]. rewrite Hn. intros Hin.
  assert (Hgate : isReadOnly (env σ) && bool_decide (name ∈ WRITABLE_TOOLS) = false
                  ∧ name ∈ names allTools_literal).
  { destruct (isReadOnly (env σ)); [rewrite andb_true_l|by split].
    vm_compute names in Hin.
      repeat (apply elem_of_cons in Hin as [->|Hin]);
      [by (split; apply (bool_decide_unpack _); vm_compute) ..|].
    by apply elem_of_nil in Hin. }
  destruct Hgate as [Hg Hcat]. split; [exact Hg|].
  destruct (switch name args) as [call|] eqn:Hs.
  - exists call. split; [done|]. intros c σ1 Hcl.
    rewrite (callTool_performs name args σ σ1 c call Hg Hcl Hs). simpl.
    split; [done|]. f_equal.
    unfold getClient in Hcl. destruct (client σ); [by injection Hcl as _ <-|].
    destruct (getRefreshToken (env σ)); [by injection Hcl as _ <-|done].
  - by apply (switch_known name args Hcat) in Hs.
Qed.

Lemma listTools_keeps (σ : State) :
  env (snd (listTools σ)) = env σ
  ∧ client (snd (listTools σ)) = client σ
  ∧ calls (snd (listTools σ)) = calls σ.
Proof. unfold listTools. by destruct (map_rest _ _). Qed.

(** X10. Listing can be repeated and does not interfere with calls:
    [ListTools] answers the same after a [ListTools], it leaves the
    environment, the client and the record of calls as they are, and a
    call made after it gets the answer it would have got before it. *)
Theorem listing_is_repeatable (σ : State) :
  catalog_in (heap σ) ->
  listed (snd (listTools σ)) = listed σ
  ∧ env (snd (listTools σ)) = env σ
  ∧ client (snd (listTools σ)) = client σ
  ∧ calls (snd (listTools σ)) = calls σ
  ∧ ∀ name args,
      fst (callTool name args (snd (listTools σ))) = fst (callTool name args σ).
Proof.
  intros Hc. destruct (listTools_keeps σ) as (He & Hcl & Hca).
  assert (Hc' : catalog_in (heap (snd (listTools σ)))).
  { rewrite (listTools_eq σ Hc). simpl.
    destruct (catalog_in_split _ Hc) as [rest ->].
    rewrite <-app_assoc. apply catalog_in_app. }
  split; [|split; [done|split; [done|split; [done|]]]].
  - by rewrite (listed_eq _ Hc'), (listed_eq σ Hc), He.
  - intros name args. unfold Server.callTool, getClient. rewrite He, Hcl.
    destruct (isReadOnly (env σ) && bool_decide (name ∈ WRITABLE_TOOLS)); [done|].
    destruct (client σ) as [c|]; simpl.
    + destruct (switch name args); [|done]. by destruct (spotClient c c0) as [[|]].
    + destruct (getRefreshToken (env σ)); simpl; [|done].
      destruct (switch name args); [|done].
      by destruct (spotClient _ c) as [[|]].
Qed.

(** X11. The client is made on the first call that needs it and kept from
    then on. With no client yet and a refresh token in the environment,
    the method is run on a new client that holds that token, the default
    URLs and no session; once there is a client, calls run on it and the
    environment is not read again. Either way the client the method
    leaves is the one the next call finds. *)
Theorem client_is_made_once (name : string) (args : Args) (σ : State)
  (call : ClientCall) :
  isReadOnly (env σ) && bool_decide (name ∈ WRITABLE_TOOLS) = false ->
  switch name args = Some call ->
  (∀ token,
     client σ = None ->
     env σ !! "RACKSPACE_SPOT_REFRESH_TOKEN" = Some token ->
     token ≠ EmptyString ->
     let c := {| SpotClient.refreshToken := token;
                 SpotClient.accessToken := None;
                 SpotClient.tokenExpiry := 0;
                 SpotClient.authBaseUrl := SpotClient.AUTH_BASE_URL;
                 SpotClient.apiBaseUrl := SpotClient.API_BASE_URL |} in
     fst (callTool name args σ) = answer c call
     ∧ client (snd (callTool name args σ)) = Some (snd (spotClient c call)))
  ∧ (∀ c,
       client σ = Some c ->
       fst (callTool name args σ) = answer c call
       ∧ client (snd (callTool name args σ)) = Some (snd (spotClient c call))
       ∧ env (snd (callTool name args σ)) = env σ).
Proof.
  intros Hg Hs. split.
  - intros token Hn He Hne c.
    assert (Hcl : getClient σ
                  = (Ok c, {| env := env σ; heap := heap σ;
                              client := Some c; calls := calls σ |})).
    { unfold getClient, getRefreshToken. rewrite Hn, He.
      by destruct token. }
    by rewrite (callTool_performs name args σ _ c call Hg Hcl Hs).
  - intros c Hc.
    assert (Hcl : getClient σ = (Ok c, σ)).
    { unfold getClient. by rewrite Hc. }
    by rewrite (callTool_performs name args σ _ c call Hg Hcl Hs).
Qed.
End WithHandlers.
End DispatchFacts.

(** ** The call handler with the client behind it *)

Section LiveFacts.
Import Server Catalog Traffic.
Context {Json : Type}.
Variable as_TokenResponse : Json -> SpotClient.TokenResponse.
Variable customFetch
  : nat -> SpotClient.Request -> Res (SpotClient.Response (Json:=Json)).
Variable Date_now : nat -> Z.
Variable createRequest
  : string -> string -> string -> option Api.Options -> SpotClient.Request.
Variable parse : SpotClient.Response (Json:=Json) -> Res (Api.FetchResult (Json:=Json)).
Variable JSON_stringify : Json -> string.
Variable truthy_json : Json -> bool.
Variable JSON_body : Api.Payload -> SpotClient.Body.
Variable JSON_pretty : option Json -> string.

Local Abbreviation perform :=
  (Live.perform as_TokenResponse customFetch Date_now createRequest parse
     JSON_stringify truthy_json JSON_body).
Local Abbreviation callTool :=
  (Live.callTool as_TokenResponse customFetch Date_now createRequest parse
     JSON_stringify truthy_json JSON_body JSON_pretty).
Local Abbreviation lib_call :=
  (Api.call as_TokenResponse customFetch Date_now createRequest parse).
Local Abbreviation unwrap := (Api.unwrap JSON_stringify truthy_json).
Local Abbreviation ensureAuthenticated :=
  (SpotClient.ensureAuthenticated as_TokenResponse customFetch Date_now).
Local Abbreviation authenticate :=
  (SpotClient.authenticate as_TokenResponse customFetch Date_now).
Local Abbreviation token_still_valid := (SpotClient.token_still_valid Date_now).
Local Abbreviation client_send :=
  (SpotClient.client_send as_TokenResponse customFetch Date_now).
Local Abbreviation pricing_call :=
  (SpotClient.pricing_call as_TokenResponse customFetch Date_now).
Local Abbreviation kubeconfig_request := (Api.kubeconfig_request JSON_body).
Local Abbreviation World := (SpotClient.World).
Local Abbreviation token_request := SpotClient.token_request.
Local Abbreviation session_valid_at := SpotClient.session_valid_at.

(** The three shapes a method has. *)
Lemma perform_routed (call : ClientCall) (m p : string) (o : option Api.Options) :
  route call = Some (m, p, o) ->
  perform call
  = SpotClient.bind (lib_call m p o) (fun r => unwrap (failed call) r).
Proof. destruct call; intros [= <- <- <-]; reflexivity. Qed.

Lemma perform_pricing (call : ClientCall) (p : string) :
  pricing_path call = Some p ->
  ∃ what,
    perform call = Live.some (pricing_call p what)
    ∧ failed call = "Failed to get " +:+ what +:+ ": ".
Proof.
  destruct call; intros [= <-].
  - by exists "market price capacity".
  - by exists "price history".
  - by exists "percentile information".
Qed.

Lemma call_shapes (call : ClientCall) :
  (∃ m p o, route call = Some (m, p, o))
  ∨ (∃ p, pricing_path call = Some p)
  ∨ (∃ o n, call = generateKubeconfig o n).
Proof.
  destruct call; try (left; by eexists _, _, _);
    try (right; left; by eexists); right; right; by eexists _, _.
Qed.

Lemma same_config_refl (c : SpotClient.t) : same_config c c.
Proof. done. Qed.

(** [ensureAuthenticated], by whether the session is valid. *)
Lemma ensureAuthenticated_cases (w : World) :
  (session_valid_at (SpotClient.client w) (Date_now (SpotClient.clock_reads w))
   ∧ ensureAuthenticated w
     = (Ok tt, {| SpotClient.client := SpotClient.client w;
                  SpotClient.fetch_log := SpotClient.fetch_log w;
                  SpotClient.clock_reads := S (SpotClient.clock_reads w) |}))
  ∨ (¬ session_valid_at (SpotClient.client w) (Date_now (SpotClient.clock_reads w))
     ∧ ensureAuthenticated w = authenticate (snd (token_still_valid w))
     ∧ SpotClient.fetch_log (snd (ensureAuthenticated w))
       = SpotClient.fetch_log w ++ [token_request (SpotClient.client w)]
     ∧ same_config (SpotClient.client (snd (ensureAuthenticated w)))
         (SpotClient.client w)
     ∧ (∀ e, fst (ensureAuthenticated w) = Throw e ->
             SpotClient.client (snd (ensureAuthenticated w)) = SpotClient.client w)).
Proof.
  destruct (session_valid_dec (SpotClient.client w)
              (Date_now (SpotClient.clock_reads w))) as [Hv|Hs].
  - left. split; [done|]. by apply ensureAuthenticated_valid.
  - right. split; [by apply session_invalid_iff|].
    destruct (checked_same Date_now w) as (Hc & Hl & _).
    assert (He : ensureAuthenticated w = authenticate (snd (token_still_valid w))).
    { rewrite ensureAuthenticated_eq, token_still_valid_eq.
      destruct Hs as [->|Hs]; [done|].
      destruct (truthy _); [|done].
      by rewrite (proj2 (Z.ltb_ge _ _) Hs). }
    split; [done|]. rewrite He.
    destruct (authenticate (snd (token_still_valid w))) as [[[]|e] w1] eqn:Ha.
    + apply authenticate_resolved in Ha as (r & d & _ & _ & _ & ->). simpl.
      rewrite Hc, Hl. split; [done|]. split; [done|]. done.
    + apply authenticate_rejected in Ha as ->. simpl.
      rewrite Hc, Hl. split; [done|]. split; [done|]. done.
Qed.

(** A request through the library's client. *)
Lemma client_send_eq (request : SpotClient.Request) (w : World) :
  client_send request w
  = if SpotClient.auth_exempt (SpotClient.url request)
    then (customFetch (length (SpotClient.fetch_log w)) request,
          {| SpotClient.client := SpotClient.client w;
             SpotClient.fetch_log := SpotClient.fetch_log w ++ [request];
             SpotClient.clock_reads := SpotClient.clock_reads w |})
    else match ensureAuthenticated w with
         | (Ok _, w1) =>
             let sent :=
               if truthy (SpotClient.accessToken (SpotClient.client w1))
               then SpotClient.set_header "Authorization"
                      (SpotClient.bearer_of
                         (SpotClient.accessToken (SpotClient.client w1))) request
               else request in
             (customFetch (length (SpotClient.fetch_log w1)) sent,
              {| SpotClient.client := SpotClient.client w1;
                 SpotClient.fetch_log := SpotClient.fetch_log w1 ++ [sent];
                 SpotClient.clock_reads := SpotClient.clock_reads w1 |})
         | (Throw e, w1) => (Throw e, w1)
         end.
Proof.
  unfold SpotClient.client_send, SpotClient.bind.
  destruct (SpotClient.auth_exempt (SpotClient.url request)) eqn:Hx.
  - by rewrite onRequest_exempt.
  - rewrite onRequest_guarded by done.
    by destruct (ensureAuthenticated w) as [[[]|e] w1].
Qed.

Lemma call_eq (m p : string) (o : option Api.Options) (w : World) :
  lib_call m p o w
  = match client_send (createRequest (SpotClient.apiBaseUrl (SpotClient.client w))
                         m p o) w with
    | (Ok response, w1) => (parse response, w1)
    | (Throw e, w1) => (Throw e, w1)
    end.
Proof. reflexivity. Qed.

Lemma unwrap_world (f : string) (r : Api.FetchResult) (w : World) :
  snd (unwrap f r w) = w.
Proof.
  unfold Api.unwrap. destruct (Api.error r) as [e|]; [|done].
  by destruct (truthy_json e).
Qed.

Lemma perform_routed_world (call : ClientCall) (m p : string)
  (o : option Api.Options) (w : World) :
  route call = Some (m, p, o) ->
  snd (perform call w)
  = snd (client_send (createRequest (SpotClient.apiBaseUrl (SpotClient.client w))
                        m p o) w).
Proof.
  intros Hr. rewrite (perform_routed call m p o Hr).
  unfold SpotClient.bind. rewrite call_eq.
  destruct (client_send _ w) as [[response|e] w1]; [|done].
  destruct (parse response) as [r|e]; [|done]. apply unwrap_world.
Qed.

Lemma some_world (m : SpotClient.M Json) (w : World) :
  snd (Live.some m w) = snd (m w).
Proof. unfold Live.some, SpotClient.bind. by destruct (m w) as [[]]. Qed.

Lemma some_result (m : SpotClient.M Json) (w : World) :
  fst (Live.some m w)
  = match fst (m w) with Ok data => Ok (Some data) | Throw e => Throw e end.
Proof. unfold Live.some, SpotClient.bind. by destruct (m w) as [[]]. Qed.

(** The requests a method sends and what it leaves of the client:
    possibly the token request first, then at most one more request, and
    at least one request in all. *)
Lemma perform_traffic (call : ClientCall) (w : World) :
  let c := SpotClient.client w in
  let w' := snd (perform call w) in
  same_config (SpotClient.client w') c
  ∧ ∃ pre post,
      SpotClient.fetch_log w' = SpotClient.fetch_log w ++ pre ++ post
      ∧ (pre = [] ∨ pre = [token_request c])
      ∧ (pre = [] -> post ≠ [])
      ∧ (post = []
         ∨ ∃ r, post = [r]
                ∧ ((∃ m p o, route call = Some (m, p, o)
                             ∧ passed (createRequest (SpotClient.apiBaseUrl c) m p o) r)
                   ∨ (∃ p, pricing_path call = Some p
                           ∧ SpotClient.method r = "GET"
                           ∧ SpotClient.url r = SpotClient.apiBaseUrl c +:+ p)
                   ∨ (∃ o n, call = generateKubeconfig o n
                             ∧ r = kubeconfig_request c o n
                             ∧ pre = []))).
Proof.
  intros c w'.
  destruct (call_shapes call) as [(m & p & o & Hr)|[(p & Hp)|(o & n & ->)]].
  - unfold w'. rewrite (perform_routed_world call m p o w Hr), client_send_eq.
    fold c. set (q := createRequest (SpotClient.apiBaseUrl c) m p o).
    destruct (SpotClient.auth_exempt (SpotClient.url q)).
    + simpl. split; [done|]. exists [], [q]. split; [done|]. split; [by left|].
      split; [done|]. right. exists q. split; [done|]. left.
      exists m, p, o. split; [done|]. by left.
    + destruct (ensureAuthenticated_cases w) as [[_ He]|(_ & _ & Hl & Hc & _)].
      * rewrite He. cbv zeta. simpl. split; [done|].
        eexists [], [_]. split; [done|]. split; [by left|]. split; [done|].
        right. eexists. split; [done|]. left. exists m, p, o. split; [done|].
        fold c q. destruct (truthy _); [right; by eexists|by left].
      * destruct (ensureAuthenticated w) as [[[]|e] w1]; simpl in *.
        -- split; [done|]. eexists [_], [_]. rewrite Hl. fold c.
           split; [by rewrite <-app_assoc|]. split; [by right|]. split; [done|].
           right. eexists. split; [done|]. left. exists m, p, o. split; [done|].
           destruct (truthy _); [right; by eexists|by left].
        -- split; [done|]. exists [token_request c], []. rewrite Hl.
           split; [done|]. split; [by right|]. split; [done|]. by left.
  - destruct (perform_pricing call p Hp) as (what & Hperf & _).
    unfold w'. rewrite Hperf, some_world.
    destruct (ensureAuthenticated_cases w) as [[_ He]|(_ & _ & Hl & Hc & _)].
    + rewrite (pricing_call_sends _ _ _ p what w _ He). simpl. split; [done|].
      eexists [], [_]. split; [done|]. split; [by left|]. split; [done|].
      right. eexists. split; [done|]. right. left. by exists p.
    + destruct (ensureAuthenticated w) as [[[]|e] w1] eqn:He; simpl in *.
      * rewrite (pricing_call_sends _ _ _ p what w _ He). simpl. split; [done|].
        eexists [_], [_]. rewrite Hl. fold c.
        split; [by rewrite <-app_assoc|]. split; [by right|]. split; [done|].
        right. eexists. split; [done|]. right. left. exists p.
        split; [done|]. split; [done|]. simpl. by destruct Hc as (_ & _ & ->).
      * rewrite (pricing_call_rejected _ _ _ p what w w1 e He). simpl.
        split; [done|]. exists [token_request c], []. rewrite Hl.
        split; [done|]. split; [by right|]. split; [done|]. by left.
  - unfold w'. simpl. rewrite some_world.
    assert (Hw : snd (Api.generateKubeconfig customFetch JSON_body o n w)
                 = {| SpotClient.client := c;
                      SpotClient.fetch_log
                        := SpotClient.fetch_log w ++ [kubeconfig_request c o n];
                      SpotClient.clock_reads := SpotClient.clock_reads w |}).
    { unfold Api.generateKubeconfig, SpotClient.bind, SpotClient.this,
        SpotClient.fetch. simpl.
      destruct (customFetch _ _) as [response|e]; [|done].
      unfold SpotClient.throw, SpotClient.lift. by destruct (negb _). }
    rewrite Hw. simpl. split; [done|].
    eexists [], [_]. split; [done|]. split; [by left|]. split; [done|].
    right. eexists. split; [done|]. right. right. by exists o, n.
Qed.

(** The handler, by how far a call gets. *)
Lemma getClient_cases (σ : Server.State) :
  (∃ c, getClient σ = (Ok c, {| env := env σ; heap := heap σ;
                                 client := Some c; calls := calls σ |})
        ∧ (∀ c0, client σ = Some c0 -> c0 = c))
  ∨ (∃ e, getClient σ = (Throw e, σ)).
Proof.
  unfold getClient. destruct σ as [e h [c|] k]; simpl.
  - left. exists c. split; [done|]. by intros c0 [= ->].
  - destruct (getRefreshToken e) as [token|err].
    + left. eexists. split; [done|]. done.
    + right. by eexists.
Qed.

Lemma live_callTool_performs (name : string) (args : Args) (l : Live.State)
  (c : SpotClient.t) (σ1 : Server.State) (call : ClientCall) :
  isReadOnly (env (Live.server l)) && bool_decide (name ∈ WRITABLE_TOOLS) = false ->
  getClient (Live.server l) = (Ok c, σ1) ->
  switch name args = Some call ->
  callTool name args l
  = (match fst (perform call (Live.world c l)) with
     | Ok data => success (JSON_pretty data)
     | Throw e => caught e
     end,
     {| Live.server
          := {| env := env σ1; heap := heap σ1;
                client := Some (SpotClient.client (snd (perform call (Live.world c l))));
                calls := calls σ1 ++ [call] |};
        Live.net := SpotClient.fetch_log (snd (perform call (Live.world c l)));
        Live.ticks := SpotClient.clock_reads (snd (perform call (Live.world c l))) |}).
Proof.
  intros Hg Hc Hs. unfold Live.callTool. rewrite Hg, Hc, Hs.
  by destruct (perform call (Live.world c l)) as [[data|e] w].
Qed.

(** A call that does not get to a method leaves the network alone. *)
Lemma live_callTool_stops (name : string) (args : Args) (l : Live.State) :
  (Live.net (snd (callTool name args l)) = Live.net l
   ∧ Live.ticks (snd (callTool name args l)) = Live.ticks l
   ∧ calls (Live.server (snd (callTool name args l))) = calls (Live.server l))
  ∨ (∃ c σ1 call,
       isReadOnly (env (Live.server l)) && bool_decide (name ∈ WRITABLE_TOOLS) = false
       ∧ getClient (Live.server l) = (Ok c, σ1)
       ∧ calls σ1 = calls (Live.server l)
       ∧ switch name args = Some call).
Proof.
  unfold Live.callTool.
  destruct (isReadOnly _ && bool_decide _) eqn:Hg; [by left|].
  destruct (getClient_cases (Live.server l)) as [(c & Hc & _)|(e & Hc)]; rewrite Hc.
  - destruct (switch name args) as [call|] eqn:Hs; [|by left].
    right. by eexists _, _, _.
  - by left.
Qed.

(** The methods the tools that are not writable call only read. *)
Lemma switch_reads (name : string) (args : Args) (call : ClientCall)
  (m p : string) (o : option Api.Options) :
  bool_decide (name ∈ WRITABLE_TOOLS) = false ->
  switch name args = Some call ->
  route call = Some (m, p, o) ->
  m = "GET".
Proof.
  intros Hw. unfold switch, cases. simpl.
  repeat match goal with
         | |- context [String.eqb name ?label] =>
             destruct (String.eqb_spec name label) as [->|_];
             [simpl; intros [= <-]; first [by intros [= <- _ _]|by vm_compute in Hw]|]
         end.
  done.
Qed.


(** A guarded method with a valid session: one request, with the cached
    token. *)
Lemma perform_signed_in (call : ClientCall) (w : World) :
  guarded createRequest (SpotClient.client w) call = true ->
  session_valid_at (SpotClient.client w) (Date_now (SpotClient.clock_reads w)) ->
  ∃ r,
    snd (perform call w)
    = {| SpotClient.client := SpotClient.client w;
         SpotClient.fetch_log := SpotClient.fetch_log w ++ [r];
         SpotClient.clock_reads := S (SpotClient.clock_reads w) |}
    ∧ SpotClient.headers r !! "Authorization"
      = Some (SpotClient.bearer_of (SpotClient.accessToken (SpotClient.client w)))
    ∧ (∀ m p o, route call = Some (m, p, o) ->
         r = SpotClient.set_header "Authorization"
               (SpotClient.bearer_of (SpotClient.accessToken (SpotClient.client w)))
               (createRequest (SpotClient.apiBaseUrl (SpotClient.client w)) m p o)).
Proof.
  unfold guarded. intros Hg Hv.
  pose proof (ensureAuthenticated_valid as_TokenResponse customFetch Date_now w Hv)
    as He.
  destruct (route call) as [[[m p] o]|] eqn:Hr.
  - rewrite (perform_routed_world call m p o w Hr), client_send_eq.
    apply negb_true_iff in Hg. rewrite Hg, He. cbv zeta. simpl.
    destruct Hv as [-> _]. eexists. split; [done|].
    split; [apply lookup_insert_eq|]. by intros m0 p0 o0 [= <- <- <-].
  - destruct (pricing_path call) as [p|] eqn:Hp; [|done].
    destruct (perform_pricing call p Hp) as (what & -> & _).
    rewrite some_world, (pricing_call_sends _ _ _ p what w _ He). simpl.
    eexists. split; [done|]. split; [apply lookup_singleton_eq|]. done.
Qed.

(** X12. In read-only mode the server writes nothing over the network:
    whatever tool is called with whatever arguments, every request the
    call sends is a [GET], the token request, or the kubeconfig request.
    (The library is taken to give a request the method it is called
    with.) *)
Theorem read_only_mode_sends_no_writes
  (name : string) (args : Args) (l : Live.State) :
  (∀ base m p o, SpotClient.method (createRequest base m p o) = m) ->
  isReadOnly (env (Live.server l)) = true ->
  ∃ sent,
    Live.net (snd (callTool name args l)) = Live.net l ++ sent
    ∧ Forall (fun r => SpotClient.method r = "GET"
                       ∨ (∃ c, r = token_request c)
                       ∨ (∃ c o n, r = kubeconfig_request c o n)) sent.
Proof.
  intros Hm Hro.
  destruct (live_callTool_stops name args l)
    as [(Hn & _)|(c & σ1 & call & Hg & Hc & _ & Hs)].
  { exists []. by rewrite app_nil_r. }
  rewrite (live_callTool_performs name args l c σ1 call Hg Hc Hs). simpl.
  rewrite Hro in Hg. simpl in Hg.
  destruct (perform_traffic call (Live.world c l))
    as (_ & pre & post & Hl & Hpre & _ & Hpost).
  exists (pre ++ post). split; [exact Hl|]. apply Forall_app. split.
  - destruct Hpre as [-> | ->]; [done|].
    apply Forall_singleton. right. left. by eexists.
  - destruct Hpost as [->|(r & -> & Hr)]; [done|]. apply Forall_singleton.
    destruct Hr as [(m & p & o & Hr & Hq)|[(p & _ & Hget & _)|(o & n & _ & -> & _)]].
    + left. rewrite <-(switch_reads name args call m p o Hg Hs Hr).
      destruct Hq as [->|[v ->]]; apply Hm.
    + by left.
    + right. right. by eexists _, _, _.
Qed.

(** X13. A tool call either stops before any method of the client (the
    gate, a missing refresh token, an unknown name) and then sends nothing
    and does not read the clock, or it runs one method, and that sends one
    or two requests: the token request at most once and first, then at
    most one more. Nothing is sent a second time, and the client keeps its
    refresh token and base URLs. *)
Theorem tool_call_traffic (name : string) (args : Args) (l : Live.State) :
  let l' := snd (callTool name args l) in
  (Live.net l' = Live.net l
   ∧ Live.ticks l' = Live.ticks l
   ∧ calls (Live.server l') = calls (Live.server l))
  ∨ (∃ c call pre post,
       fst (getClient (Live.server l)) = Ok c
       ∧ switch name args = Some call
       ∧ calls (Live.server l') = calls (Live.server l) ++ [call]
       ∧ Live.net l' = Live.net l ++ pre ++ post
       ∧ (pre = [] ∨ pre = [token_request c])
       ∧ (length post ≤ 1)%nat
       ∧ (1 ≤ length (pre ++ post))%nat
       ∧ ∃ c', client (Live.server l') = Some c' ∧ same_config c' c).
Proof.
  intros l'. unfold l'.
  destruct (live_callTool_stops name args l)
    as [H|(c & σ1 & call & Hg & Hc & Hk & Hs)]; [by left|].
  right. rewrite (live_callTool_performs name args l c σ1 call Hg Hc Hs). simpl.
  destruct (perform_traffic call (Live.world c l))
    as (Hsame & pre & post & Hl & Hpre & Hne & Hpost).
  exists c, call, pre, post. rewrite Hc, Hk.
  split; [done|]. split; [done|]. split; [done|]. split; [exact Hl|].
  split; [exact Hpre|]. split; [|split].
  - destruct Hpost as [->|(r & -> & _)]; simpl; lia.
  - rewrite length_app. destruct Hpre as [-> | ->]; simpl; [|lia].
    specialize (Hne eq_refl). destruct post; [done|simpl; lia].
  - by eexists.
Qed.

(** X14. [get_kubeconfig] needs no session: with a client at hand, in
    either mode, the call sends one request and nothing else, without an
    [Authorization] header, with the refresh token in its body; it does
    not read the clock and leaves the client as it is. A response that is
    not [ok] comes back as an error result with the status and the body
    text. *)
Theorem get_kubeconfig_bypasses_session
  (args : Args) (l : Live.State) (c : SpotClient.t) (σ1 : Server.State) :
  getClient (Live.server l) = (Ok c, σ1) ->
  let organizationName := arg args "organizationName" in
  let cloudspaceName := arg args "cloudspaceName" in
  let request := kubeconfig_request c organizationName cloudspaceName in
  let l' := snd (callTool "get_kubeconfig" args l) in
  Live.net l' = Live.net l ++ [request]
  ∧ Live.ticks l' = Live.ticks l
  ∧ client (Live.server l') = Some c
  ∧ SpotClient.headers request !! "Authorization" = None
  ∧ SpotClient.body request
    = JSON_body (Api.PObj [ ("organization_name", Api.PVal organizationName);
                            ("cloudspace_name", Api.PVal cloudspaceName);
                            ("refresh_token",
                               Api.PVal (JStr (SpotClient.refreshToken c))) ])
  ∧ ∀ response,
      customFetch (length (Live.net l)) request = Ok response ->
      fst (callTool "get_kubeconfig" args l)
      = if SpotClient.ok response
        then match SpotClient.json response with
             | Ok data =>
                 {| content := [ {| type := "text";
                                    text := JSON_pretty (Some data) |} ];
                    isError := None |}
             | Throw e => caught e
             end
        else {| content
                  := [ {| type := "text";
                          text := "Error: Failed to generate kubeconfig: "
                                  +:+ pretty (SpotClient.status response)
                                  +:+ " - " +:+ SpotClient.text response |} ];
                isError := Some true |}.
Proof.
  intros Hc organizationName cloudspaceName request l'.
  assert (Hg : ∀ name, name = "get_kubeconfig" ->
                isReadOnly (env (Live.server l))
                && bool_decide (name ∈ WRITABLE_TOOLS) = false).
  { intros name ->. destruct (isReadOnly _); [by vm_compute|done]. }
  assert (Hs : switch "get_kubeconfig" args
               = Some (generateKubeconfig organizationName cloudspaceName))
    by reflexivity.
  unfold l'. rewrite (live_callTool_performs _ args l c σ1 _ (Hg _ eq_refl) Hc Hs).
  unfold Live.perform, Live.some, Api.generateKubeconfig, SpotClient.bind,
    SpotClient.this, SpotClient.fetch, SpotClient.ret. simpl.
  fold request.
  destruct (customFetch (length (Live.net l)) request) as [response|e] eqn:Hf.
  - unfold SpotClient.throw, SpotClient.lift.
    destruct (SpotClient.ok response) eqn:Hok; simpl.
    + destruct (SpotClient.json response) as [data|e] eqn:Hj; simpl;
        (split; [done|]); (split; [done|]); (split; [done|]); (split; [done|]);
        (split; [done|]); intros ? [= <-]; by rewrite Hok, Hj.
    + split; [done|]. split; [done|]. split; [done|]. split; [done|].
      split; [done|]. intros ? [= <-]. by rewrite Hok.
  - simpl. by repeat (split; [done|]).
Qed.


(** X16. With a valid session a guarded method sends exactly one request,
    with [Bearer] and the cached token in its [Authorization] header, makes
    no exchange, reads the clock once and leaves the client as it is. *)
Theorem valid_session_is_used
  (name : string) (args : Args) (l : Live.State) (c : SpotClient.t)
  (σ1 : Server.State) (call : ClientCall) :
  isReadOnly (env (Live.server l)) && bool_decide (name ∈ WRITABLE_TOOLS) = false ->
  getClient (Live.server l) = (Ok c, σ1) ->
  switch name args = Some call ->
  guarded createRequest c call = true ->
  session_valid_at c (Date_now (Live.ticks l)) ->
  let l' := snd (callTool name args l) in
  ∃ r,
    Live.net l' = Live.net l ++ [r]
    ∧ SpotClient.headers r !! "Authorization"
      = Some (SpotClient.bearer_of (SpotClient.accessToken c))
    ∧ client (Live.server l') = Some c
    ∧ Live.ticks l' = S (Live.ticks l).
Proof.
  intros Hg Hc Hs Hgd Hv l'. unfold l'.
  rewrite (live_callTool_performs name args l c σ1 call Hg Hc Hs). simpl.
  destruct (perform_signed_in call (Live.world c l) Hgd Hv) as (r & -> & Hh & _).
  by exists r.
Qed.

(** X17. What becomes of the library's answer at the tool boundary, for a
    method that goes through the library and has a valid session: an
    [error] that is truthy comes back as an error result made of the
    method's words and the error as JSON; with no [error], or one that is
    falsy, the call counts as a success and [data] is answered, whatever
    the status of the response was. *)
Theorem api_error_reporting
  (name : string) (args : Args) (l : Live.State) (c : SpotClient.t)
  (σ1 : Server.State) (call : ClientCall)
  (m p : string) (o : option Api.Options)
  (response : SpotClient.Response) (r : Api.FetchResult) :
  isReadOnly (env (Live.server l)) && bool_decide (name ∈ WRITABLE_TOOLS) = false ->
  getClient (Live.server l) = (Ok c, σ1) ->
  switch name args = Some call ->
  route call = Some (m, p, o) ->
  guarded createRequest c call = true ->
  session_valid_at c (Date_now (Live.ticks l)) ->
  customFetch (length (Live.net l))
    (SpotClient.set_header "Authorization"
       (SpotClient.bearer_of (SpotClient.accessToken c))
       (createRequest (SpotClient.apiBaseUrl c) m p o)) = Ok response ->
  parse response = Ok r ->
  fst (callTool name args l)
  = match Api.error r with
    | Some e =>
        if truthy_json e
        then {| content := [ {| type := "text";
                                text := "Error: " +:+ failed call
                                        +:+ JSON_stringify e |} ];
                isError := Some true |}
        else {| content := [ {| type := "text";
                                text := JSON_pretty (Api.data r) |} ];
                isError := None |}
    | None => {| content := [ {| type := "text";
                                 text := JSON_pretty (Api.data r) |} ];
                 isError := None |}
    end.
Proof.
  intros Hg Hc Hs Hr Hgd Hv Hf Hp.
  rewrite (live_callTool_performs name args l c σ1 call Hg Hc Hs). simpl.
  rewrite (perform_routed call m p o Hr). unfold SpotClient.bind at 1.
  rewrite call_eq, client_send_eq.
  unfold guarded in Hgd. rewrite Hr in Hgd. apply negb_true_iff in Hgd.
  simpl. rewrite Hgd.
  rewrite (ensureAuthenticated_valid as_TokenResponse customFetch Date_now
             (Live.world c l) Hv).
  cbv zeta. simpl. destruct Hv as [Ht _]. rewrite Ht, Hf, Hp.
  unfold Api.unwrap. destruct (Api.error r) as [e|]; [|done].
  by destruct (truthy_json e).
Qed.

(** The two embeddings of the call handler agree: the one over an
    abstract client, run with [client_of] as that client, gives the answer
    and the server state of the one with the methods filled in. *)
Lemma handler_with_client_behind (name : string) (args : Args) (l : Live.State) :
  Server.callTool
    (Live.client_of as_TokenResponse customFetch Date_now createRequest parse
       JSON_stringify truthy_json JSON_body l)
    JSON_pretty name args (Live.server l)
  = (fst (callTool name args l), Live.server (snd (callTool name args l))).
Proof.
  unfold Server.callTool, Live.callTool, Live.client_of.
  destruct (isReadOnly _ && bool_decide _); [done|].
  destruct (getClient (Live.server l)) as [[c|e] σ1]; [|done].
  destruct (switch name args) as [call|]; [|done].
  by destruct (perform call (Live.world c l)) as [[data|e] w].
Qed.
End LiveFacts.

(** ** The further statements on the test doubles *)

Section SessionExamples.
Import SpotClient Mock.

Local Abbreviation ensure := (ensureAuthenticated mock_cast mockFetch clock).
Local Abbreviation refused := (ensureAuthenticated mock_cast denyingFetch clock).
Local Abbreviation once := (snd (ensure fresh)).

(** The mock token: cached under [id_token], good until a day after the
    first reading of the clock, and so valid an hour later. *)
Lemma session_lifetime_witness :
  authenticate mock_cast mockFetch clock fresh
  = (Ok tt, snd (authenticate mock_cast mockFetch clock fresh))
  ∧ accessToken (client (snd (authenticate mock_cast mockFetch clock fresh)))
    = Some "mock-id-token"
  ∧ session_valid_at (client (snd (authenticate mock_cast mockFetch clock fresh)))
      (clock 3600).
Proof.
  assert (H : authenticate mock_cast mockFetch clock fresh
              = (Ok tt, snd (authenticate mock_cast mockFetch clock fresh)))
    by reflexivity.
  destruct (session_lifetime mock_cast mockFetch clock fresh _ (clock 3600) H)
    as (response & data & Hf & Hj & Ht & _ & Hv & _).
  injection Hf as <-. injection Hj as <-.
  split; [exact H|]. split; [exact Ht|].
  apply Hv. split; [discriminate|]. vm_compute. reflexivity.
Defined.

(** The 401 of the unit test, twice over. *)
Lemma failed_exchange_is_retried_witness :
  (∀ n, clock n ≤ clock (S n))
  ∧ fst (refused fresh)
    = Throw (ErrorObj ("Authentication failed: 401 - " +:+ denied_text))
  ∧ exchanges (snd (refused (snd (refused fresh)))) = 2%nat.
Proof.
  assert (H1 : ∀ n, clock n ≤ clock (S n)) by (intros n; unfold clock; lia).
  assert (H2 : refused fresh
               = (Throw (ErrorObj ("Authentication failed: 401 - " +:+ denied_text)),
                  snd (refused fresh))) by reflexivity.
  split; [exact H1|]. split; [by rewrite H2|].
  exact (proj2 (proj2 (failed_exchange_is_retried mock_cast denyingFetch clock
                         fresh _ _ H1 H2))).
Defined.

(** Three calls in a row after the first exchange. *)
Lemma token_reused_within_window_witness :
  truthy (accessToken (client once)) = true
  ∧ (∀ i, (i < 3)%nat ->
          clock (clock_reads once + i)%nat < tokenExpiry (client once) - 60000)
  ∧ exchanges (Nat.iter 3 (fun w => snd (ensure w)) once) = 1%nat.
Proof.
  assert (H1 : truthy (accessToken (client once)) = true) by reflexivity.
  assert (H2 : ∀ i, (i < 3)%nat ->
                 clock (clock_reads once + i)%nat < tokenExpiry (client once) - 60000).
  { intros i Hi. simpl. unfold clock. lia. }
  split; [exact H1|]. split; [exact H2|].
  exact (proj1 (proj2 (token_reused_within_window mock_cast mockFetch clock
                         3 once H1 H2))).
Defined.

(** The market price call of the unit test. *)
Lemma pricing_call_outcomes_witness :
  ensure fresh = (Ok tt, once)
  ∧ fetch_log (snd (getMarketPriceCapacity mock_cast mockFetch clock fresh))
    = fetch_log once
      ++ [pricing_request (client once)
            "/apis/pricing.ngpc.rxt.io/v1/market-price-capacity"]
  ∧ pricing_call mock_cast denyingFetch clock
      "/apis/pricing.ngpc.rxt.io/v1/market-price-capacity" "market price capacity"
      fresh
    = (Throw (ErrorObj ("Authentication failed: 401 - " +:+ denied_text)),
       snd (refused fresh)).
Proof.
  assert (H1 : ensure fresh = (Ok tt, once)) by reflexivity.
  assert (H2 : refused fresh
               = (Throw (ErrorObj ("Authentication failed: 401 - " +:+ denied_text)),
                  snd (refused fresh))) by reflexivity.
  split; [exact H1|]. split.
  - pose proof (proj1 (proj2 (proj2 (pricing_call_outcomes mock_cast mockFetch clock
                         "/apis/pricing.ngpc.rxt.io/v1/market-price-capacity"
                         "market price capacity" fresh) once H1))) as H.
    unfold getMarketPriceCapacity. by rewrite H.
  - exact (proj1 (pricing_call_outcomes mock_cast denyingFetch clock
                    "/apis/pricing.ngpc.rxt.io/v1/market-price-capacity"
                    "market price capacity" fresh) _ _ H2).
Defined.

End SessionExamples.

Section DispatchExamples.
Import Server Catalog.

Local Abbreviation callTool := (callTool quietClient stringify_unit).

(** [get_region] declares [name] only: a second property changes
    nothing. *)
Lemma only_declared_arguments_matter_witness :
  declared "get_region" = [ "name" ]
  ∧ callTool "get_region" (Some {[ "name" := JStr "us-central-dfw-1" ]})
      (started readWriteEnv)
    = callTool "get_region"
        (Some {[ "name" := JStr "us-central-dfw-1"; "region" := JStr "elsewhere" ]})
        (started readWriteEnv).
Proof.
  assert (H1 : declared "get_region" = [ "name" ]) by reflexivity.
  assert (H2 : ∀ k, k ∈ declared "get_region" ->
                 arg (Some {[ "name" := JStr "us-central-dfw-1" ]}) k
                 = arg (Some {[ "name" := JStr "us-central-dfw-1";
                                "region" := JStr "elsewhere" ]}) k).
  { intros k Hk. rewrite H1 in Hk. apply list_elem_of_singleton in Hk as ->.
    reflexivity. }
  split; [exact H1|].
  exact (only_declared_arguments_matter quietClient stringify_unit
           "get_region" _ _ (started readWriteEnv) H2).
Defined.

(** [list_regions] on the read-only test server. *)
Lemma listed_tools_run_witness :
  catalog_in (heap (started readOnlyEnv))
  ∧ "list_regions" ∈ names (listed (started readOnlyEnv))
  ∧ switch "list_regions" no_args = Some listRegions
  ∧ calls (snd (callTool "list_regions" no_args (started readOnlyEnv)))
    = [ listRegions ].
Proof.
  assert (H1 : catalog_in (heap (started readOnlyEnv))) by reflexivity.
  destruct (listed_tools_run quietClient stringify_unit (started readOnlyEnv)
              "list_regions" no_args H1) as [Hn Hrun].
  assert (H2 : "list_regions" ∈ names (listed (started readOnlyEnv))).
  { rewrite Hn. apply (list_elem_of_lookup_2 _ 0%nat). reflexivity. }
  destruct (Hrun H2) as (_ & call & Hs & Hc).
  injection Hs as <-.
  split; [exact H1|]. split; [exact H2|]. split; [reflexivity|].
  exact (proj2 (Hc _ _ eq_refl)).
Defined.

Lemma listing_is_repeatable_witness :
  catalog_in (heap (started readOnlyEnv))
  ∧ listed (snd (listTools (started readOnlyEnv))) = listed (started readOnlyEnv).
Proof.
  assert (H1 : catalog_in (heap (started readOnlyEnv))) by reflexivity.
  split; [exact H1|].
  exact (proj1 (listing_is_repeatable quietClient stringify_unit
                  (started readOnlyEnv) H1)).
Defined.

(** The first call on the read-write test server makes the client from
    [test-token]. *)
Lemma client_is_made_once_witness :
  isReadOnly (env (started readWriteEnv))
  && bool_decide ("list_regions" ∈ WRITABLE_TOOLS) = false
  ∧ switch "list_regions" no_args = Some listRegions
  ∧ client (snd (callTool "list_regions" no_args (started readWriteEnv)))
    = Some (SpotClient.new {| SpotClient.cfg_refreshToken := "test-token";
                              SpotClient.cfg_baseUrl := None;
                              SpotClient.cfg_authUrl := None |}).
Proof.
  split; [reflexivity|]. split; [reflexivity|].
  refine (proj2 (proj1 (client_is_made_once quietClient stringify_unit
                          "list_regions" no_args (started readWriteEnv) listRegions
                          eq_refl eq_refl)
                   "test-token" eq_refl eq_refl _)).
  discriminate.
Defined.

End DispatchExamples.

Section LiveExamples.
Import Server Catalog Traffic Mock Stub.

Local Abbreviation live_call fetch :=
  (Live.callTool mock_cast fetch clock createRequest parse JSON_stringify
     truthy_json JSON_body JSON_pretty).

(** [create_cloudspace] is stopped and [list_regions] sends the token
    request and a [GET] on the read-only test server. *)
Lemma read_only_mode_sends_no_writes_witness :
  (∀ base m p o, SpotClient.method (createRequest base m p o) = m)
  ∧ isReadOnly (env (Live.server (Live.started readOnlyEnv))) = true
  ∧ SpotClient.method
      <$> Live.net (snd (live_call mockFetch "list_regions" no_args
                           (Live.started readOnlyEnv)))
    = [ "POST"; "GET" ]
  ∧ ∃ sent,
      Live.net (snd (live_call mockFetch "list_regions" no_args
                       (Live.started readOnlyEnv)))
      = Live.net (Live.started readOnlyEnv) ++ sent
      ∧ Forall (fun r => SpotClient.method r = "GET"
                         ∨ (∃ c, r = SpotClient.token_request c)
                         ∨ (∃ c o n, r = Api.kubeconfig_request JSON_body c o n))
          sent.
Proof.
  assert (H1 : ∀ base m p o, SpotClient.method (createRequest base m p o) = m)
    by reflexivity.
  assert (H2 : isReadOnly (env (Live.server (Live.started readOnlyEnv))) = true)
    by reflexivity.
  split; [exact H1|]. split; [exact H2|]. split; [reflexivity|].
  exact (read_only_mode_sends_no_writes mock_cast mockFetch clock createRequest
           parse JSON_stringify truthy_json JSON_body JSON_pretty
           "list_regions" no_args (Live.started readOnlyEnv) H1 H2).
Defined.

(** [get_kubeconfig] on a server that has a client and no session, with a
    token endpoint that would refuse. *)
Lemma get_kubeconfig_bypasses_session_witness :
  getClient (Live.server (serving readOnlyEnv (SpotClient.client fresh)))
  = (Ok (SpotClient.client fresh),
     Live.server (serving readOnlyEnv (SpotClient.client fresh)))
  ∧ length (Live.net (snd (live_call denyingFetch "get_kubeconfig" no_args
                             (serving readOnlyEnv (SpotClient.client fresh)))))
    = 1%nat
  ∧ fst (live_call denyingFetch "get_kubeconfig" no_args
           (serving readOnlyEnv (SpotClient.client fresh)))
    = error_result ("Error: Failed to generate kubeconfig: 401 - " +:+ denied_text).
Proof.
  assert (H1 : getClient (Live.server (serving readOnlyEnv (SpotClient.client fresh)))
               = (Ok (SpotClient.client fresh),
                  Live.server (serving readOnlyEnv (SpotClient.client fresh))))
    by reflexivity.
  destruct (get_kubeconfig_bypasses_session mock_cast denyingFetch clock
              createRequest parse JSON_stringify truthy_json JSON_body JSON_pretty
              no_args (serving readOnlyEnv (SpotClient.client fresh)) _ _ H1)
    as (Hn & _ & _ & _ & _ & Hr).
  split; [exact H1|]. split; [by rewrite Hn|].
  exact (Hr denied eq_refl).
Defined.


(** [get_market_pricing] on a server that is signed in. *)
Lemma valid_session_is_used_witness :
  guarded createRequest signed_in getMarketPriceCapacity = true
  ∧ SpotClient.session_valid_at signed_in (clock 0)
  ∧ ∃ r,
      Live.net (snd (live_call mockFetch "get_market_pricing" no_args
                       (serving readOnlyEnv signed_in)))
      = [ r ]
      ∧ SpotClient.headers r !! "Authorization" = Some "Bearer mock-id-token".
Proof.
  assert (H1 : guarded createRequest signed_in getMarketPriceCapacity = true)
    by reflexivity.
  assert (H2 : SpotClient.session_valid_at signed_in (clock 0)).
  { split; [reflexivity|]. vm_compute. reflexivity. }
  destruct (valid_session_is_used mock_cast mockFetch clock
              createRequest parse JSON_stringify truthy_json JSON_body JSON_pretty
              "get_market_pricing" no_args (serving readOnlyEnv signed_in)
              _ _ getMarketPriceCapacity eq_refl eq_refl eq_refl H1 H2)
    as (r & Hn & Hh & _).
  split; [exact H1|]. split; [exact H2|]. exists r. split; [exact Hn|exact Hh].
Defined.

(** [list_regions] answered with a 401 by the API itself. *)
Lemma api_error_reporting_witness :
  guarded createRequest signed_in listRegions = true
  ∧ SpotClient.session_valid_at signed_in (clock 0)
  ∧ parse denied
    = Ok {| Api.data := None; Api.error := Some (ErrorData "Invalid refresh token") |}
  ∧ fst (live_call denyingFetch "list_regions" no_args
           (serving readOnlyEnv signed_in))
    = error_result "Error: Failed to list regions: Invalid refresh token".
Proof.
  assert (H1 : guarded createRequest signed_in listRegions = true) by reflexivity.
  assert (H2 : SpotClient.session_valid_at signed_in (clock 0)).
  { split; [reflexivity|]. vm_compute. reflexivity. }
  assert (H3 : parse denied
               = Ok {| Api.data := None;
                       Api.error := Some (ErrorData "Invalid refresh token") |})
    by reflexivity.
  split; [exact H1|]. split; [exact H2|]. split; [exact H3|].
  exact (api_error_reporting mock_cast denyingFetch clock
           createRequest parse JSON_stringify truthy_json JSON_body JSON_pretty
           "list_regions" no_args (serving readOnlyEnv signed_in)
           _ _ listRegions _ _ _ denied _
           eq_refl eq_refl eq_refl eq_refl H1 H2 eq_refl H3).
Defined.

End LiveExamples.

(** ** A session granted on the way *)

Section GrantFacts.
Import Server Catalog Traffic.
Context {Json : Type}.
Variable as_TokenResponse : Json -> SpotClient.TokenResponse.
Variable customFetch
  : nat -> SpotClient.Request -> Res (SpotClient.Response (Json:=Json)).
Variable Date_now : nat -> Z.
Variable createRequest
  : string -> string -> string -> option Api.Options -> SpotClient.Request.
Variable parse : SpotClient.Response (Json:=Json) -> Res (Api.FetchResult (Json:=Json)).
Variable JSON_stringify : Json -> string.
Variable truthy_json : Json -> bool.
Variable JSON_body : Api.Payload -> SpotClient.Body.
Variable JSON_pretty : option Json -> string.

Local Abbreviation perform :=
  (Live.perform as_TokenResponse customFetch Date_now createRequest parse
     JSON_stringify truthy_json JSON_body).
Local Abbreviation callTool :=
  (Live.callTool as_TokenResponse customFetch Date_now createRequest parse
     JSON_stringify truthy_json JSON_body JSON_pretty).
Local Abbreviation ensureAuthenticated :=
  (SpotClient.ensureAuthenticated as_TokenResponse customFetch Date_now).
Local Abbreviation authenticate :=
  (SpotClient.authenticate as_TokenResponse customFetch Date_now).
Local Abbreviation token_still_valid := (SpotClient.token_still_valid Date_now).
Local Abbreviation World := (SpotClient.World).
Local Abbreviation token_request := SpotClient.token_request.
Local Abbreviation session_valid_at := SpotClient.session_valid_at.

(** [ensureAuthenticated] on a stale session with a token endpoint that
    grants. *)
Lemma ensureAuthenticated_granted (w : World)
  (response : SpotClient.Response) (data : Json) :
  ¬ session_valid_at (SpotClient.client w) (Date_now (SpotClient.clock_reads w)) ->
  customFetch (length (SpotClient.fetch_log w)) (token_request (SpotClient.client w))
  = Ok response ->
  SpotClient.ok response = true ->
  SpotClient.json response = Ok data ->
  ∃ expiry ticks,
    ensureAuthenticated w
    = (Ok tt,
       {| SpotClient.client
            := SpotClient.set_session (SpotClient.client w)
                 (SpotClient.id_token (as_TokenResponse data)) expiry;
          SpotClient.fetch_log
            := SpotClient.fetch_log w ++ [token_request (SpotClient.client w)];
          SpotClient.clock_reads := ticks |}).
Proof.
  intros Hstale Hf Hok Hj.
  destruct (ensureAuthenticated_cases as_TokenResponse customFetch Date_now w)
    as [[Hv _]|(_ & He & _)]; [done|].
  destruct (checked_same Date_now w) as (Hcl & Hlog & _).
  rewrite He.
  destruct (authenticate (snd (token_still_valid w))) as [[[]|e] w1] eqn:Ha.
  - apply authenticate_resolved in Ha as (r & d & Hf' & _ & Hj' & ->).
    rewrite Hcl, Hlog in Hf'. rewrite Hf in Hf'. injection Hf' as <-.
    rewrite Hj in Hj'. injection Hj' as <-.
    rewrite Hcl, Hlog. by eexists _, _.
  - rewrite authenticate_eq, Hcl, Hlog, Hf in Ha.
    unfold SpotClient.authenticate_response, SpotClient.bind, SpotClient.lift in Ha.
    rewrite Hok, Hj in Ha. simpl in Ha. discriminate Ha.
Qed.

Lemma routed_not_pricing (call : ClientCall) (m p : string)
  (o : option Api.Options) :
  route call = Some (m, p, o) -> pricing_path call = None.
Proof. by destruct call. Qed.

(** X19. When a method that asks for a session finds none valid and the
    token endpoint grants one, the tool call sends two requests, the token
    request and then the method's own, and the client is left holding the
    [id_token] of the grant. A pricing method writes [Bearer] and that
    token into its header whatever the token is; a method that goes
    through the library gets the header only if the token is not empty. *)
Theorem granted_exchange_then_request
  (name : string) (args : Args) (l : Live.State) (c : SpotClient.t)
  (σ1 : Server.State) (call : ClientCall)
  (response : SpotClient.Response) (data : Json) :
  isReadOnly (env (Live.server l)) && bool_decide (name ∈ WRITABLE_TOOLS) = false ->
  getClient (Live.server l) = (Ok c, σ1) ->
  switch name args = Some call ->
  guarded createRequest c call = true ->
  ¬ session_valid_at c (Date_now (Live.ticks l)) ->
  customFetch (length (Live.net l)) (token_request c) = Ok response ->
  SpotClient.ok response = true ->
  SpotClient.json response = Ok data ->
  let l' := snd (callTool name args l) in
  let token := SpotClient.id_token (as_TokenResponse data) in
  ∃ r c',
    Live.net l' = Live.net l ++ [token_request c; r]
    ∧ client (Live.server l') = Some c'
    ∧ SpotClient.accessToken c' = Some token
    ∧ same_config c' c
    ∧ (∀ m p o, route call = Some (m, p, o) ->
         let request := createRequest (SpotClient.apiBaseUrl c) m p o in
         r = if truthy (Some token)
             then SpotClient.set_header "Authorization" ("Bearer " +:+ token) request
             else request)
    ∧ (∀ p, pricing_path call = Some p ->
         r = SpotClient.pricing_request c' p
         ∧ SpotClient.headers r !! "Authorization" = Some ("Bearer " +:+ token)).
Proof.
  intros Hg Hc Hs Hgd Hstale Hf Hok Hj l' token. unfold l'.
  rewrite (live_callTool_performs _ _ _ _ _ _ _ _ _ name args l c σ1 call Hg Hc Hs).
  simpl.
  destruct (ensureAuthenticated_granted (Live.world c l) response data
              Hstale Hf Hok Hj) as (expiry & ticks & He).
  simpl in He. fold token in He. unfold guarded in Hgd.
  destruct (route call) as [[[m p] o]|] eqn:Hr.
  - rewrite (perform_routed_world _ _ _ _ _ _ _ _ call m p o _ Hr).
    rewrite client_send_eq. apply negb_true_iff in Hgd. simpl.
    rewrite Hgd, He. cbv zeta. simpl.
    eexists _, _. split; [by rewrite <-app_assoc|].
    split; [done|]. split; [done|]. split; [done|].
    split; [by intros m0 p0 o0 [= <- <- <-]|].
    intros p0 Hp. by rewrite (routed_not_pricing call m p o Hr) in Hp.
  - destruct (pricing_path call) as [p|] eqn:Hp; [|done].
    destruct (perform_pricing as_TokenResponse customFetch Date_now createRequest
                parse JSON_stringify truthy_json JSON_body call p Hp)
      as (what & -> & _).
    rewrite some_world, (pricing_call_sends _ _ _ p what _ _ He). simpl.
    eexists _, _. split; [by rewrite <-app_assoc|].
    split; [done|]. split; [done|]. split; [done|].
    split; [done|]. intros p0 [= <-]. split; [done|]. apply lookup_singleton_eq.
Qed.
End GrantFacts.

Section GrantExamples.
Import Server Catalog Traffic Mock Stub.

Local Abbreviation live_call fetch :=
  (Live.callTool mock_cast fetch clock createRequest parse JSON_stringify
     truthy_json JSON_body JSON_pretty).

(** The first [list_regions] on a server that has its client. *)
Lemma granted_exchange_then_request_witness :
  guarded createRequest (SpotClient.client fresh) listRegions = true
  ∧ ¬ SpotClient.session_valid_at (SpotClient.client fresh) (clock 0)
  ∧ SpotClient.url
      <$> Live.net (snd (live_call mockFetch "list_regions" no_args
                           (serving readOnlyEnv (SpotClient.client fresh))))
    = [ "https://login.spot.rackspace.com/oauth/token";
        "https://spot.rackspace.com/apis/ngpc.rxt.io/v1/regions" ]
  ∧ (last (Live.net (snd (live_call mockFetch "list_regions" no_args
                            (serving readOnlyEnv (SpotClient.client fresh)))))
       ≫= fun r => SpotClient.headers r !! "Authorization")
    = Some "Bearer mock-id-token".
Proof.
  assert (H1 : guarded createRequest (SpotClient.client fresh) listRegions = true)
    by reflexivity.
  assert (H2 : ¬ SpotClient.session_valid_at (SpotClient.client fresh) (clock 0)).
  { intros [Ht _]. discriminate Ht. }
  destruct (granted_exchange_then_request mock_cast mockFetch clock
              createRequest parse JSON_stringify truthy_json JSON_body JSON_pretty
              "list_regions" no_args (serving readOnlyEnv (SpotClient.client fresh))
              _ _ listRegions granted (TokenData tokens)
              eq_refl eq_refl eq_refl H1 H2 eq_refl eq_refl eq_refl)
    as (r & c' & Hn & _ & _ & _ & Hr & _).
  split; [exact H1|]. split; [exact H2|].
  rewrite Hn, (Hr _ _ _ eq_refl). split; reflexivity.
Defined.
End GrantExamples.
